(** * Working-copy registry and dirty-files tracker

    A shallow embedding of
    - [src/vs/workbench/services/workingCopy/common/workingCopyService.ts]
      (class [WorkingCopyService]) and
    - the [DirtyFilesTracker] workbench contribution,
    together with the properties their specification states about them.

    The service is stateful: its methods are embedded as computations of a
    small state monad over a [World] that holds the service's index, the
    listeners attached to the working copies, the dirty flags of the copies
    and the trace of events the service has fired. *)

From Stdlib Require Import ZArith Ascii String DecimalString.
From stdpp Require Import base option gmap sets fin_sets list strings.

(** ** Data model *)

(** Modelled from the spec: the [URI] class (vs/base/common/uri) is not part
    of the sources; a resource is an opaque identifier that is used through
    its string form only, so a URI is represented by that string and
    [toString] returns it. *)
Definition URI : Type := string.

Definition toString (u : URI) : string := u.

(** [IWorkingCopy]: a JavaScript object.  [ident] is its object identity, so
    that two copies of one resource are different members of a [Set];
    [resource] is the readonly field of the interface; [capabilities] is the
    bit set the tracker reads.  What [isDirty()] answers changes over time and
    lives in the [World]. *)
Record IWorkingCopy : Type := mkWorkingCopy {
  ident : nat;
  resource : URI;
  capabilities : Z
}.

#[global] Instance IWorkingCopy_eq_dec : EqDecision IWorkingCopy.
Proof. solve_decision. Defined.

#[global] Instance IWorkingCopy_countable : Countable IWorkingCopy.
Proof.
  refine (inj_countable'
            (fun c => (ident c, resource c, capabilities c))
            (fun t => match t with (i, r, k) => mkWorkingCopy i r k end) _).
  by intros [].
Defined.

(** The world the service runs in.

    - [mapResourceToWorkingCopy] is the index of the service.
      Modelled from the spec: [TernarySearchTree] (vs/base/common/map) is not
      part of the sources; the index is a mapping from the string form of a
      resource to a set of working copies, with [get], [set], [delete] and
      [forEach].  A JavaScript [Set] held in the index is mutated in place;
      it is reachable through the index only, so an [add] or [delete] on it
      is an update of the entry it is stored under.
    - [copyListeners] are the listeners the copies' own [onDidChangeDirty]
      events currently hold, oldest first: [(n, c)] is the subscription
      number [n], made on copy [c], whose listener is
      [() => this._onDidChangeDirty.fire(c)].
    - [nextListener] numbers the subscriptions.
    - [dirtyCopies] are the copies whose [isDirty()] answers true.
    - [firedEvents] is the trace of [this._onDidChangeDirty.fire], oldest
      first. *)
Record World : Type := mkWorld {
  mapResourceToWorkingCopy : gmap string (gset IWorkingCopy);
  copyListeners : list (nat * IWorkingCopy);
  nextListener : nat;
  dirtyCopies : gset IWorkingCopy;
  firedEvents : list IWorkingCopy
}.

Definition initialWorld : World :=
  mkWorld ∅ [] 0 ∅ [].

(** ** A state monad over the world *)

Definition M (A : Type) : Type := World -> A * World.

#[global] Instance M_ret : MRet M := fun A a w => (a, w).

#[global] Instance M_bind : MBind M :=
  fun A B f m w => let (a, w') := m w in f a w'.

Definition evalM {A} (m : M A) (w : World) : A := fst (m w).
Definition execM {A} (m : M A) (w : World) : World := snd (m w).

Definition whenM (b : bool) (m : M unit) : M unit :=
  if b then m else mret tt.

Module Index.
(** Modelled from the spec: the operations of the missing
    [TernarySearchTree] on the index, as those of a plain map keyed by the
    string form of the resource. *)
Definition get (k : string) : M (option (gset IWorkingCopy)) :=
  fun w => (mapResourceToWorkingCopy w !! k, w).

Definition set (k : string) (s : gset IWorkingCopy) : M unit :=
  fun w => (tt, mkWorld (<[k := s]> (mapResourceToWorkingCopy w))
                        (copyListeners w) (nextListener w)
                        (dirtyCopies w) (firedEvents w)).

Definition delete (k : string) : M unit :=
  fun w => (tt, mkWorld (base.delete k (mapResourceToWorkingCopy w))
                        (copyListeners w) (nextListener w)
                        (dirtyCopies w) (firedEvents w)).
End Index.

Module Copy.
(** [workingCopy.isDirty()]: a read of the copy's flag. *)
Definition isDirty (c : IWorkingCopy) : M bool :=
  fun w => (bool_decide (c ∈ dirtyCopies w), w).

(** Modelled from the spec: [Event] and [Emitter] (vs/base/common/event)
    are not part of the sources.  An event is a notification source that
    several independent listeners can subscribe to, each subscription
    cancellable on its own, with synchronous in-order delivery to the
    subscribers of the moment.  [onDidChangeDirty c] subscribes the
    service's forwarding listener to copy [c] and returns the
    subscription. *)
Definition onDidChangeDirty (c : IWorkingCopy) : M nat :=
  fun w => (nextListener w,
            mkWorld (mapResourceToWorkingCopy w)
                    (copyListeners w ++ [(nextListener w, c)])
                    (S (nextListener w))
                    (dirtyCopies w) (firedEvents w)).

(** Cancelling a subscription removes its listener; cancelling it again
    changes nothing. *)
Definition unsubscribe (n : nat) : M unit :=
  fun w => (tt, mkWorld (mapResourceToWorkingCopy w)
                        (filter (fun l => l.1 ≠ n) (copyListeners w))
                        (nextListener w)
                        (dirtyCopies w) (firedEvents w)).
End Copy.

(** [this._onDidChangeDirty.fire(c)]: one more event of the service. *)
Definition fire (c : IWorkingCopy) : M unit :=
  fun w => (tt, mkWorld (mapResourceToWorkingCopy w) (copyListeners w)
                        (nextListener w) (dirtyCopies w)
                        (firedEvents w ++ [c])).

(** ** [WorkingCopyService] *)

(** Modelled from the spec: [toDisposable], [DisposableStore] and [dispose]
    (vs/base/common/lifecycle) are not part of the sources.  Registration
    returns an owned cleanup capability; here it is the closure
    [() => { this.unregisterWorkingCopy(workingCopy); dispose(disposables); }]
    with the two values it captures.  [disposables] is the store of the call,
    which holds the one subscription the call has made. *)
Record IDisposable : Type := toDisposable {
  workingCopy : IWorkingCopy;
  disposables : nat
}.

(** [for (const workingCopy of workingCopies)
      if (workingCopy.isDirty()) return true]

    A [Set] is iterated in insertion order, a [gset] in the order of its
    [elements]; what the two loops of the service compute depends on the
    members only. *)
Fixpoint anyDirty (cs : list IWorkingCopy) : M bool :=
  match cs with
  | [] => mret false
  | c :: cs' => d ← Copy.isDirty c; if d : bool then mret true else anyDirty cs'
  end.

Definition isDirty (r : URI) : M bool :=
  workingCopies ← Index.get (toString r);
  match workingCopies with
  | Some s => anyDirty (elements s)
  | None => mret false
  end.

(** [for (const workingCopy of workingCopies)
      if (workingCopy.isDirty()) totalDirtyCount++] *)
Fixpoint countDirty (cs : list IWorkingCopy) (totalDirtyCount : nat) : M nat :=
  match cs with
  | [] => mret totalDirtyCount
  | c :: cs' =>
      d ← Copy.isDirty c;
      countDirty cs' (if d : bool then S totalDirtyCount else totalDirtyCount)
  end.

(** [this.mapResourceToWorkingCopy.forEach(workingCopies => ...)] *)
Fixpoint forEachDirty (entries : list (string * gset IWorkingCopy))
    (totalDirtyCount : nat) : M nat :=
  match entries with
  | [] => mret totalDirtyCount
  | (_, s) :: entries' =>
      n ← countDirty (elements s) totalDirtyCount;
      forEachDirty entries' n
  end.

Definition dirtyCount : M nat :=
  fun w => forEachDirty (map_to_list (mapResourceToWorkingCopy w)) 0 w.

Definition registerWorkingCopy (c : IWorkingCopy) : M IDisposable :=
  let k := toString (resource c) in
  found ← Index.get k;
  workingCopiesForResource ←
    match found with
    | Some s => mret s
    | None => Index.set k ∅;; mret (∅ : gset IWorkingCopy)
    end;
  whenM (negb (bool_decide (c ∈ workingCopiesForResource)))
        (Index.set k (workingCopiesForResource ∪ {[c]}));;
  n ← Copy.onDidChangeDirty c;
  mret (toDisposable c n).

Definition unregisterWorkingCopy (c : IWorkingCopy) : M unit :=
  let k := toString (resource c) in
  workingCopiesForResource ← Index.get k;
  match workingCopiesForResource with
  | Some s =>
      if bool_decide (c ∈ s) then
        Index.set k (s ∖ {[c]});;
        whenM (Nat.eqb (size (s ∖ {[c]})) 0) (Index.delete k)
      else mret tt
  | None => mret tt
  end;;
  d ← Copy.isDirty c;
  whenM d (fire c).

(** Disposing the handle runs the closure: the copy is unregistered, then
    the store is disposed, which cancels its subscription. *)
Definition dispose (h : IDisposable) : M unit :=
  unregisterWorkingCopy (workingCopy h);;
  Copy.unsubscribe (disposables h).

(** ** The owners of the copies

    A working copy is external to the service: its owner flips its dirty flag
    and fires the copy's own [onDidChangeDirty], which calls, oldest first,
    the listeners subscribed to that copy at that moment. *)
Fixpoint deliver (ls : list (nat * IWorkingCopy)) (c : IWorkingCopy) : M unit :=
  match ls with
  | [] => mret tt
  | (_, c') :: ls' => whenM (bool_decide (c' = c)) (fire c');; deliver ls' c
  end.

Definition setDirty (c : IWorkingCopy) (b : bool) : M unit :=
  fun w =>
    deliver (copyListeners w) c
      (mkWorld (mapResourceToWorkingCopy w) (copyListeners w) (nextListener w)
               (if b then dirtyCopies w ∪ {[c]} else dirtyCopies w ∖ {[c]})
               (firedEvents w)).

(** ** Sequences of operations *)

Inductive Op : Type :=
  | Register (c : IWorkingCopy)
  | Dispose (h : IDisposable)
  | SetDirty (c : IWorkingCopy) (b : bool).

Definition step (op : Op) : M unit :=
  match op with
  | Register c => registerWorkingCopy c;; mret tt
  | Dispose h => dispose h
  | SetDirty c b => setDirty c b
  end.

Fixpoint run (ops : list Op) : M unit :=
  match ops with
  | [] => mret tt
  | op :: ops' => step op;; run ops'
  end.

(** The copies that are registered after a sequence of operations, read off
    the sequence alone: a registration adds the copy, the disposal of a
    handle takes its copy away. *)
Fixpoint registeredCopies (ops : list Op) (before : gset IWorkingCopy)
    : gset IWorkingCopy :=
  match ops with
  | [] => before
  | Register c :: ops' => registeredCopies ops' (before ∪ {[c]})
  | Dispose h :: ops' => registeredCopies ops' (before ∖ {[workingCopy h]})
  | SetDirty _ _ :: ops' => registeredCopies ops' before
  end.

(** ** Reading the index *)

Definition key (c : IWorkingCopy) : string := toString (resource c).

(** The copies the index holds under key [k]. *)
Definition copiesUnder (k : string) (w : World) : gset IWorkingCopy :=
  default ∅ (mapResourceToWorkingCopy w !! k).

(** [c] is registered: the set stored under its resource has it. *)
Definition registered (c : IWorkingCopy) (w : World) : Prop :=
  c ∈ copiesUnder (key c) w.

#[global] Instance registered_dec c w : Decision (registered c w).
Proof. unfold registered. apply _. Defined.

#[global] Typeclasses Opaque registered.

(** All the copies the index holds, under any key. *)
Definition indexedCopies (w : World) : gset IWorkingCopy :=
  ⋃ (map_to_list (mapResourceToWorkingCopy w)).*2.

(** The listeners subscribed to copy [c]. *)
Definition subscriptions (c : IWorkingCopy) (w : World) : list nat :=
  (filter (fun l => l.2 = c) (copyListeners w)).*1.

(** The invariant of the index: no key holds an empty set, and a copy is
    stored under the string form of its own resource. *)
Definition index_inv (w : World) : Prop :=
  map_Forall (fun k s => s ≠ ∅ ∧ set_Forall (fun c => key c = k) s)
             (mapResourceToWorkingCopy w).

#[global] Instance index_inv_dec w : Decision (index_inv w).
Proof. unfold index_inv. apply _. Defined.

(** What a copy answers to [isDirty()] in world [w]. *)
Definition reportsDirty (w : World) (c : IWorkingCopy) : Prop :=
  evalM (Copy.isDirty c) w = true.

#[global] Instance reportsDirty_dec w c : Decision (reportsDirty w c).
Proof. unfold reportsDirty. apply _. Defined.

#[global] Typeclasses Opaque reportsDirty.

(** ** [DirtyFilesTracker] *)

(** Modelled from the spec: the enum [AutoSaveMode] is declared with the
    text-file service, outside the sources.  The tracker tells the policy
    "save shortly after edit" from every other policy and nothing more. *)
Inductive AutoSaveMode : Type :=
  | AFTER_SHORT_DELAY
  | AutoSaveModeOther.

#[global] Instance AutoSaveMode_eq_dec : EqDecision AutoSaveMode.
Proof. solve_decision. Defined.

(** Modelled from the spec: the enum [ModelState] is declared with the
    text-file service, outside the sources.  The tracker asks for the
    transient "pending save" state only. *)
Inductive ModelState : Type :=
  | PENDING_SAVE
  | ModelStateOther.

Module TextFileModel.
(** What the tracker asks of a text-file model. *)
Record t : Type := mk {
  isDirty : bool;
  hasState : ModelState -> bool
}.
End TextFileModel.

Module TextFileModelChangeEvent.
Record t : Type := mk { resource : URI }.
End TextFileModelChangeEvent.

(** The collaborators the tracker queries:
    [textFileService.getAutoSaveMode()], [textFileService.models.get(r)] and
    [editorService.isOpen({ resource: r })]. *)
Record Services : Type := mkServices {
  getAutoSaveMode : AutoSaveMode;
  models_get : URI -> option TextFileModel.t;
  isOpen : URI -> bool
}.

(** Modelled from the spec: [NumberBadge] belongs to the activity service,
    outside the sources: a numeric badge with a label formatter, whose
    description is the formatter applied to the number. *)
Record NumberBadge : Type := mkNumberBadge {
  number : nat;
  descriptorFn : nat -> string
}.

Definition getDescription (b : NumberBadge) : string :=
  descriptorFn b (number b).

(** The arguments of one [activityService.showActivity] call. *)
Record Activity : Type := showActivity {
  viewletId : string;
  badge : NumberBadge;
  clazz : string
}.

Record EditorOptions : Type := mkEditorOptions {
  inactive : bool;
  pinned : bool;
  preserveFocus : bool
}.

Record IResourceInput : Type := mkResourceInput {
  input_resource : URI;
  options : EditorOptions
}.

(** The tracker: its field [lastKnownDirtyCount] ([None] is [undefined]),
    the activity its [badgeHandle] currently holds ([None] once cleared), and
    the batches it has passed to [editorService.openEditors], oldest
    first. *)
Record DirtyFilesTracker : Type := mkTracker {
  lastKnownDirtyCount : option nat;
  badgeHandle : option Activity;
  openEditors : list (list IResourceInput)
}.

(** JavaScript's [a & b] on integer-valued numbers: both operands are taken
    to signed 32-bit integers first. *)
Definition toInt32 (z : Z) : Z := ((z + 2 ^ 31) mod 2 ^ 32 - 2 ^ 31)%Z.

Definition band (a b : Z) : Z := Z.land (toInt32 a) (toInt32 b).

(** The decimal form of a count, as template substitution writes it. *)
Definition string_of_nat (n : nat) : string :=
  NilZero.string_of_uint (Nat.to_uint n).

(** Modelled from the spec: [nls.localize] is outside the sources
    (localization is out of scope); the label is the message with the
    placeholder [{0}] replaced by the argument. *)
Fixpoint format (message arg : string) : string :=
  match message with
  | String "{"%char (String "0"%char (String "}"%char rest)) => (arg +:+ format rest arg)%string
  | String ch rest => String ch (format rest arg)
  | EmptyString => EmptyString
  end.

Definition localize (key message : string) (args : list string) : string :=
  match args with
  | [] => message
  | arg :: _ => format message arg
  end.

(** Modelled from the spec: [arrays.distinct(array, keyFn)]
    (vs/base/common/arrays) is outside the sources; it removes duplicates by
    key and keeps, of the elements with one key, the first. *)
Fixpoint distinctFrom {T} (seen : gset string) (keyFn : T -> string)
    (array : list T) : list T :=
  match array with
  | [] => []
  | elem :: rest =>
      if decide (keyFn elem ∈ seen) then distinctFrom seen keyFn rest
      else elem :: distinctFrom ({[keyFn elem]} ∪ seen) keyFn rest
  end.

Definition distinct {T} (array : list T) (keyFn : T -> string) : list T :=
  distinctFrom ∅ keyFn array.

Section Tracker.
(** [WorkingCopyCapabilities.AutoSave] and [VIEWLET_ID] are constants
    declared outside the sources. *)
Variable AutoSave : Z.
Variable VIEWLET_ID : string.
Variable sv : Services.

Definition hasDirtyCount (t : DirtyFilesTracker) : bool :=
  match lastKnownDirtyCount t with
  | Some n => Nat.ltb 0 n
  | None => false
  end.

Definition updateActivityBadge (w : World) (t : DirtyFilesTracker)
    : DirtyFilesTracker :=
  let dirtyCount := evalM dirtyCount w in
  if Nat.ltb 0 dirtyCount then
    mkTracker (Some dirtyCount)
      (Some (showActivity VIEWLET_ID
               (mkNumberBadge dirtyCount
                  (fun num =>
                     if Nat.eqb num 1
                     then localize "dirtyFile" "1 unsaved file" []
                     else localize "dirtyFiles" "{0} unsaved files"
                                   [string_of_nat dirtyCount]))
               "explorer-viewlet-label"))
      (openEditors t)
  else
    mkTracker (Some dirtyCount) None (openEditors t).

Definition onWorkingCopyDidChangeDirty (w : World) (copy : IWorkingCopy)
    (t : DirtyFilesTracker) : DirtyFilesTracker :=
  if negb (Z.eqb (band (capabilities copy) AutoSave) 0)
     && bool_decide (getAutoSaveMode sv = AFTER_SHORT_DELAY)
  then t
  else
    let gotDirty := evalM (Copy.isDirty copy) w in
    if gotDirty || hasDirtyCount t then updateActivityBadge w t else t.

Definition doOpenDirtyResources (resources : list URI) (t : DirtyFilesTracker)
    : DirtyFilesTracker :=
  mkTracker (lastKnownDirtyCount t) (badgeHandle t)
    (openEditors t
     ++ [map (fun resource =>
                mkResourceInput resource (mkEditorOptions true true true))
             resources]).

(** The callback of [e.filter]. *)
Definition becameDirtyUnopened (e : TextFileModelChangeEvent.t) : bool :=
  let model := models_get sv (TextFileModelChangeEvent.resource e) in
  let shouldOpen :=
    match model with
    | Some m =>
        TextFileModel.isDirty m && negb (TextFileModel.hasState m PENDING_SAVE)
    | None => false
    end in
  shouldOpen && negb (isOpen sv (TextFileModelChangeEvent.resource e)).

Definition onTextFilesDirty (e : list TextFileModelChangeEvent.t)
    (t : DirtyFilesTracker) : DirtyFilesTracker :=
  doOpenDirtyResources
    (distinct (map TextFileModelChangeEvent.resource
                   (List.filter becameDirtyUnopened e))
              toString)
    t.
End Tracker.

(** The number of times [c] occurs when the set under its resource is
    iterated. *)
Definition entriesFor (c : IWorkingCopy) (w : World) : nat :=
  length (filter (fun x => x = c) (elements (copiesUnder (key c) w))).

(** ** Further readings of the world *)

(** Every subscription in use was numbered before [nextListener]: the number
    the next registration takes is fresh. *)
Definition listeners_fresh (w : World) : Prop :=
  Forall (fun l => l.1 < nextListener w) (copyListeners w).

#[global] Instance listeners_fresh_dec w : Decision (listeners_fresh w).
Proof. unfold listeners_fresh. apply _. Defined.

(** ** The tracker as a listener of the service *)

(** The tracker as its constructor leaves it: [lastKnownDirtyCount] is
    undefined, the badge handle is empty, no editor has been requested. *)
Definition newTracker : DirtyFilesTracker := mkTracker None None [].

(** What the fields of the tracker have to do with each other: a badge is
    held exactly when the last known count is positive, and it shows that
    count. *)
Definition indicator_inv (t : DirtyFilesTracker) : Prop :=
  match badgeHandle t with
  | Some a => 0 < number (badge a)
              ∧ lastKnownDirtyCount t = Some (number (badge a))
  | None => hasDirtyCount t = false
  end.

(** The handler's first test: the copy declares the auto-save capability and
    the policy is auto-save after a short delay. *)
Definition suppressed (AutoSave : Z) (sv : Services) (copy : IWorkingCopy)
    : bool :=
  negb (Z.eqb (band (capabilities copy) AutoSave) 0)
  && bool_decide (getAutoSaveMode sv = AFTER_SHORT_DELAY).

(** The service and the tracker that [registerListeners] has subscribed to
    the service's [onDidChangeDirty]. *)
Record System : Type := mkSystem {
  world : World;
  tracker : DirtyFilesTracker
}.

Definition SM (A : Type) : Type := System -> A * System.

#[global] Instance SM_ret : MRet SM := fun A a s => (a, s).

#[global] Instance SM_bind : MBind SM :=
  fun A B f m s => let (a, s') := m s in f a s'.

Definition execSM {A} (m : SM A) (s : System) : System := snd (m s).

(** A computation of the service, run in the system: the tracker is not
    involved. *)
Definition liftW {A} (m : M A) : SM A :=
  fun s => let (a, w') := m (world s) in (a, mkSystem w' (tracker s)).

Definition whenSM (b : bool) (m : SM unit) : SM unit :=
  if b then m else mret tt.

Section Listening.
Variable AutoSave : Z.
Variable VIEWLET_ID : string.
Variable sv : Services.

(** [this._onDidChangeDirty.fire(c)] with the tracker subscribed
    ([c => this.onWorkingCopyDidChangeDirty(c)]): the event is delivered
    synchronously, the handler runs in the world of that moment. *)
Definition callTracker (c : IWorkingCopy) : SM unit :=
  fun s =>
    (tt, mkSystem (world s)
           (onWorkingCopyDidChangeDirty AutoSave VIEWLET_ID sv
              (world s) c (tracker s))).

Definition fireL (c : IWorkingCopy) : SM unit :=
  liftW (fire c);; callTracker c.

(** [registerWorkingCopy] fires nothing. *)
Definition registerWorkingCopyL (c : IWorkingCopy) : SM IDisposable :=
  liftW (registerWorkingCopy c).

(** [unregisterWorkingCopy], line by line, with the listening tracker. *)
Definition unregisterWorkingCopyL (c : IWorkingCopy) : SM unit :=
  let k := toString (resource c) in
  workingCopiesForResource ← liftW (Index.get k);
  match workingCopiesForResource with
  | Some s =>
      if bool_decide (c ∈ s) then
        liftW (Index.set k (s ∖ {[c]}));;
        whenSM (Nat.eqb (size (s ∖ {[c]})) 0) (liftW (Index.delete k))
      else mret tt
  | None => mret tt
  end;;
  d ← liftW (Copy.isDirty c);
  whenSM d (fireL c).

Definition disposeL (h : IDisposable) : SM unit :=
  unregisterWorkingCopyL (workingCopy h);;
  liftW (Copy.unsubscribe (disposables h)).

(** The copy's own event calls the forwarding listeners of the service. *)
Fixpoint deliverL (ls : list (nat * IWorkingCopy)) (c : IWorkingCopy)
    : SM unit :=
  match ls with
  | [] => mret tt
  | (_, c') :: ls' => whenSM (bool_decide (c' = c)) (fireL c');; deliverL ls' c
  end.

Definition setDirtyL (c : IWorkingCopy) (b : bool) : SM unit :=
  fun s =>
    let w := world s in
    deliverL (copyListeners w) c
      (mkSystem
         (mkWorld (mapResourceToWorkingCopy w) (copyListeners w)
                  (nextListener w)
                  (if b then dirtyCopies w ∪ {[c]} else dirtyCopies w ∖ {[c]})
                  (firedEvents w))
         (tracker s)).
End Listening.

(** ** Sample objects *)

Definition copyA : IWorkingCopy := mkWorkingCopy 1 "/f1" 0.
Definition copyB : IWorkingCopy := mkWorkingCopy 2 "/f1" 2.

Definition sampleServices : Services :=
  mkServices AFTER_SHORT_DELAY
    (fun r =>
       if decide (r = "/a") then Some (TextFileModel.mk true (fun _ => false))
       else if decide (r = "/b") then Some (TextFileModel.mk true (fun _ => true))
       else None)
    (fun r => bool_decide (r = "/c")).

Definition copyC : IWorkingCopy := mkWorkingCopy 3 "/f2" 0.

(** A policy other than auto-save after a short delay. *)
Definition manualSave : Services :=
  mkServices AutoSaveModeOther (fun _ => None) (fun _ => false).

(** ** The effect of each operation on each component of the world *)

Ltac run_M :=
  unfold execM, evalM, whenM, Index.get, Index.set, Index.delete,
    Copy.isDirty, Copy.onDidChangeDirty, Copy.unsubscribe, fire,
    mbind, M_bind, mret, M_ret; simpl.

Section Effects.
Implicit Types (c : IWorkingCopy) (w : World) (k : string).

Lemma register_index c w :
  mapResourceToWorkingCopy (execM (registerWorkingCopy c) w)
  = <[key c := copiesUnder (key c) w ∪ {[c]}]> (mapResourceToWorkingCopy w).
Proof.
  unfold registerWorkingCopy, copiesUnder, key. run_M.
  destruct (mapResourceToWorkingCopy w !! toString (resource c)) as [s|] eqn:E;
    simpl.
  - destruct (decide (c ∈ s)) as [Hin|Hin].
    + rewrite bool_decide_eq_true_2 by done. simpl.
      assert (s ∪ {[c]} = s) as ->.
      { apply leibniz_equiv. intros x. rewrite elem_of_union, elem_of_singleton.
        split; [by intros [?| ->]|by left]. }
      by rewrite insert_id.
    + rewrite bool_decide_eq_false_2 by done. done.
  - rewrite bool_decide_eq_false_2 by set_solver. simpl.
    by rewrite insert_insert_eq.
Qed.

Lemma register_others c w :
  let w' := execM (registerWorkingCopy c) w in
  copyListeners w' = copyListeners w ++ [(nextListener w, c)]
  ∧ nextListener w' = S (nextListener w)
  ∧ dirtyCopies w' = dirtyCopies w
  ∧ firedEvents w' = firedEvents w
  ∧ evalM (registerWorkingCopy c) w = toDisposable c (nextListener w).
Proof.
  unfold registerWorkingCopy. run_M.
  destruct (mapResourceToWorkingCopy w !! toString (resource c)) as [s|];
    simpl; destruct (bool_decide _); simpl; done.
Qed.

Lemma unregister_index c w :
  mapResourceToWorkingCopy (execM (unregisterWorkingCopy c) w)
  = if decide (c ∈ copiesUnder (key c) w) then
      if decide (copiesUnder (key c) w ∖ {[c]} = ∅)
      then delete (key c) (mapResourceToWorkingCopy w)
      else <[key c := copiesUnder (key c) w ∖ {[c]}]> (mapResourceToWorkingCopy w)
    else mapResourceToWorkingCopy w.
Proof.
  unfold unregisterWorkingCopy, copiesUnder, key. run_M.
  destruct (mapResourceToWorkingCopy w !! toString (resource c)) as [s|] eqn:E;
    simpl.
  - destruct (decide (c ∈ s)) as [Hin|Hin].
    + rewrite bool_decide_eq_true_2 by done. simpl.
      destruct (decide (s ∖ {[c]} = ∅)) as [He|He].
      * rewrite He, size_empty. simpl.
        destruct (bool_decide _); simpl; by rewrite delete_insert_eq.
      * destruct (Nat.eqb_spec (size (s ∖ {[c]})) 0) as [Hz|Hz].
        { by apply size_empty_inv, leibniz_equiv in Hz. }
        simpl. by destruct (bool_decide _).
    + rewrite bool_decide_eq_false_2 by done. simpl.
      by destruct (bool_decide _).
  - rewrite decide_False by set_solver. by destruct (bool_decide _).
Qed.

Lemma unregister_others c w :
  let w' := execM (unregisterWorkingCopy c) w in
  copyListeners w' = copyListeners w
  ∧ nextListener w' = nextListener w
  ∧ dirtyCopies w' = dirtyCopies w
  ∧ firedEvents w'
    = firedEvents w ++ (if bool_decide (c ∈ dirtyCopies w) then [c] else []).
Proof.
  unfold unregisterWorkingCopy. run_M.
  destruct (mapResourceToWorkingCopy w !! toString (resource c)) as [s|];
    simpl.
  - destruct (bool_decide (c ∈ s)); simpl.
    + destruct (Nat.eqb _ 0); simpl;
        destruct (bool_decide (c ∈ dirtyCopies w)); simpl;
        by rewrite ?app_nil_r.
    + destruct (bool_decide (c ∈ dirtyCopies w)); simpl;
        by rewrite ?app_nil_r.
  - destruct (bool_decide (c ∈ dirtyCopies w)); simpl;
      by rewrite ?app_nil_r.
Qed.
End Effects.

Section IndexLemmas.
Implicit Types (c : IWorkingCopy) (w : World) (k : string).

Lemma elem_of_indexedCopies c w :
  c ∈ indexedCopies w
  ↔ ∃ k s, mapResourceToWorkingCopy w !! k = Some s ∧ c ∈ s.
Proof.
  unfold indexedCopies. rewrite elem_of_union_list. split.
  - intros (s & Hs & Hc). apply list_elem_of_fmap in Hs as ([k s'] & -> & Hks).
    apply elem_of_map_to_list in Hks. eauto.
  - intros (k & s & Hks & Hc). exists s. split; [|done].
    apply list_elem_of_fmap. exists (k, s). split; [done|].
    by apply elem_of_map_to_list.
Qed.

Lemma elem_of_copiesUnder c k w :
  c ∈ copiesUnder k w
  ↔ ∃ s, mapResourceToWorkingCopy w !! k = Some s ∧ c ∈ s.
Proof.
  unfold copiesUnder. destruct (mapResourceToWorkingCopy w !! k) as [s|]; simpl.
  - split; [eauto|]. by intros (s' & [= <-] & ?).
  - split; [by intros ?%not_elem_of_empty|]. by intros (s' & [=] & ?).
Qed.

Lemma index_inv_key c k w :
  index_inv w → c ∈ copiesUnder k w → key c = k.
Proof.
  intros Hinv (s & Hs & Hc)%elem_of_copiesUnder.
  destruct (Hinv k s Hs) as [_ Hk]. by apply Hk.
Qed.

Lemma indexed_iff_registered c w :
  index_inv w → c ∈ indexedCopies w ↔ registered c w.
Proof.
  intros Hinv. unfold registered.
  rewrite elem_of_indexedCopies, elem_of_copiesUnder. split.
  - intros (k & s & Hs & Hc). exists s. split; [|done].
    destruct (Hinv k s Hs) as [_ Hk]. by rewrite (Hk c Hc).
  - intros (s & Hs & Hc). eauto.
Qed.

Lemma copiesUnder_filter k w :
  index_inv w →
  copiesUnder k w = filter (fun c => key c = k) (indexedCopies w).
Proof.
  intros Hinv. apply leibniz_equiv. intros c.
  rewrite elem_of_filter, elem_of_indexedCopies, elem_of_copiesUnder. split.
  - intros (s & Hs & Hc). split; [|eauto].
    destruct (Hinv k s Hs) as [_ Hk]. by apply Hk.
  - intros (Hk & k' & s & Hs & Hc). exists s. split; [|done].
    destruct (Hinv k' s Hs) as [_ Hk']. by rewrite <- Hk, (Hk' c Hc).
Qed.

Lemma index_inv_initial : index_inv initialWorld.
Proof. unfold index_inv. simpl. apply map_Forall_empty. Qed.

Lemma register_inv c w :
  index_inv w → index_inv (execM (registerWorkingCopy c) w).
Proof.
  intros Hinv. unfold index_inv. rewrite register_index.
  apply map_Forall_insert_2; [|done]. split.
  - intros He. assert (c ∈ (∅ : gset IWorkingCopy)) as Hc; [|set_solver].
    rewrite <- He. apply elem_of_union_r. by apply elem_of_singleton.
  - intros x [Hx| ->%elem_of_singleton]%elem_of_union; [|done].
    by apply (index_inv_key x _ w).
Qed.

Lemma register_indexed c w :
  indexedCopies (execM (registerWorkingCopy c) w) = indexedCopies w ∪ {[c]}.
Proof.
  apply leibniz_equiv. intros x.
  rewrite elem_of_union, elem_of_singleton, !elem_of_indexedCopies.
  rewrite register_index. split.
  - intros (k & s & Hs & Hx). destruct (decide (key c = k)) as [<-|Hne].
    + rewrite lookup_insert_eq in Hs. injection Hs as <-.
      apply elem_of_union in Hx as [Hx| ->%elem_of_singleton]; [|by right].
      left. apply elem_of_copiesUnder in Hx as (s & Hs & Hx). eauto.
    + rewrite lookup_insert_ne in Hs by done. left. eauto.
  - intros [(k & s & Hs & Hx)| ->].
    + destruct (decide (key c = k)) as [<-|Hne].
      * exists (key c), (copiesUnder (key c) w ∪ {[c]}).
        rewrite lookup_insert_eq. split; [done|].
        apply elem_of_union_l, elem_of_copiesUnder. eauto.
      * exists k, s. by rewrite lookup_insert_ne.
    + exists (key c), (copiesUnder (key c) w ∪ {[c]}).
      rewrite lookup_insert_eq. split; [done|].
      apply elem_of_union_r. by apply elem_of_singleton.
Qed.

Lemma unregister_inv c w :
  index_inv w → index_inv (execM (unregisterWorkingCopy c) w).
Proof.
  intros Hinv. unfold index_inv. rewrite unregister_index.
  destruct (decide _) as [Hin|Hin]; [|done].
  destruct (decide _) as [He|He].
  - by apply map_Forall_delete.
  - apply map_Forall_insert_2; [|done]. split; [done|].
    intros x [Hx _]%elem_of_difference. by apply (index_inv_key x _ w).
Qed.

Lemma unregister_indexed c w :
  index_inv w →
  indexedCopies (execM (unregisterWorkingCopy c) w) = indexedCopies w ∖ {[c]}.
Proof.
  intros Hinv. apply leibniz_equiv. intros x.
  rewrite elem_of_difference, elem_of_singleton, !elem_of_indexedCopies.
  rewrite unregister_index.
  destruct (decide (c ∈ _)) as [Hin|Hin].
  - destruct (decide (_ = ∅)) as [He|He].
    + split.
      * intros (k & s & Hs & Hx).
        apply lookup_delete_Some in Hs as [Hne Hs]. split; [eauto|].
        intros ->. destruct (Hinv k s Hs) as [_ Hk]. exact (Hne (Hk c Hx)).
      * intros [(k & s & Hs & Hx) Hne]. exists k, s. split; [|done].
        apply lookup_delete_Some. split; [|done]. intros <-.
        assert (x ∈ copiesUnder (key c) w ∖ {[c]}) as Hx';
          [|rewrite He in Hx'; by apply not_elem_of_empty in Hx'].
        apply elem_of_difference. rewrite elem_of_singleton.
        split; [|done]. apply elem_of_copiesUnder. eauto.
    + split.
      * intros (k & s & Hs & Hx). destruct (decide (key c = k)) as [<-|Hne].
        -- rewrite lookup_insert_eq in Hs. injection Hs as <-.
           apply elem_of_difference in Hx as [Hx Hxc].
           rewrite elem_of_singleton in Hxc. split; [|done].
           apply elem_of_copiesUnder in Hx as (s & Hs & Hx). eauto.
        -- rewrite lookup_insert_ne in Hs by done. split; [eauto|].
           intros ->. destruct (Hinv k s Hs) as [_ Hk]. exact (Hne (Hk c Hx)).
      * intros [(k & s & Hs & Hx) Hne].
        destruct (decide (key c = k)) as [<-|Hnk].
        -- exists (key c), (copiesUnder (key c) w ∖ {[c]}).
           rewrite lookup_insert_eq. split; [done|].
           apply elem_of_difference. rewrite elem_of_singleton.
           split; [|done]. apply elem_of_copiesUnder. eauto.
        -- exists k, s. by rewrite lookup_insert_ne.
  - split.
    + intros (k & s & Hs & Hx). split; [eauto|]. intros ->.
      apply Hin. apply elem_of_copiesUnder. exists s. split; [|done].
      destruct (Hinv k s Hs) as [_ Hk]. by rewrite (Hk c Hx).
    + intros [? _]. done.
Qed.
End IndexLemmas.

Section QueryLemmas.
Implicit Types (c : IWorkingCopy) (w : World) (k : string).

Lemma anyDirty_run cs w :
  execM (anyDirty cs) w = w
  ∧ (evalM (anyDirty cs) w = true ↔ ∃ c, c ∈ cs ∧ c ∈ dirtyCopies w).
Proof.
  induction cs as [|c cs [IHw IHv]]; simpl.
  - split; [done|]. split; [done|]. by intros (c & ?%not_elem_of_nil & _).
  - unfold execM, evalM in *. run_M.
    destruct (decide (c ∈ dirtyCopies w)) as [Hd|Hd].
    + rewrite bool_decide_eq_true_2 by done. simpl. split; [done|].
      split; [|done]. intros _. exists c. split; [apply list_elem_of_here|done].
    + rewrite bool_decide_eq_false_2 by done. split; [done|].
      rewrite IHv. split.
      * intros (x & Hx & Hxd). exists x. split; [by apply list_elem_of_further|done].
      * intros (x & Hx & Hxd). exists x. split; [|done].
        apply elem_of_cons in Hx as [->|Hx]; done.
Qed.

Lemma isDirty_run (r : URI) w :
  execM (isDirty r) w = w
  ∧ (evalM (isDirty r) w = true
     ↔ ∃ c, c ∈ copiesUnder (toString r) w ∧ c ∈ dirtyCopies w).
Proof.
  unfold isDirty, copiesUnder, execM, evalM. run_M.
  destruct (mapResourceToWorkingCopy w !! toString r) as [s|]; simpl.
  - destruct (anyDirty_run (elements s) w) as [Hw Hv].
    split; [done|]. unfold evalM in Hv. rewrite Hv.
    by setoid_rewrite elem_of_elements.
  - split; [done|]. split; [done|]. by intros (c & ?%not_elem_of_empty & _).
Qed.

Lemma filter_elements_length (D s : gset IWorkingCopy) :
  length (filter (fun c => c ∈ D) (elements s))
  = size (filter (fun c => c ∈ D) s).
Proof.
  unfold size, set_size. simpl. apply Permutation_length.
  apply NoDup_Permutation.
  - apply NoDup_filter, NoDup_elements.
  - apply NoDup_elements.
  - intros x. by rewrite list_elem_of_filter, !elem_of_elements, elem_of_filter.
Qed.

Lemma countDirty_run cs n w :
  countDirty cs n w
  = (n + length (filter (fun c => c ∈ dirtyCopies w) cs), w).
Proof.
  revert n. induction cs as [|c cs IH]; intros n; simpl.
  - unfold mret, M_ret. by rewrite Nat.add_0_r.
  - run_M. rewrite IH. rewrite filter_cons.
    destruct (decide (c ∈ dirtyCopies w)) as [Hd|Hd].
    + rewrite bool_decide_eq_true_2 by done. simpl. f_equal. lia.
    + by rewrite bool_decide_eq_false_2 by done.
Qed.

Lemma forEachDirty_run (entries : list (string * gset IWorkingCopy)) n w :
  forEachDirty entries n w
  = (n + sum_list_with
           (fun e => size (filter (fun c => c ∈ dirtyCopies w) e.2)) entries,
     w).
Proof.
  revert n. induction entries as [|[k s] es IH]; intros n; simpl.
  - unfold mret, M_ret. by rewrite Nat.add_0_r.
  - run_M. rewrite countDirty_run, IH, filter_elements_length.
    f_equal. lia.
Qed.

(** The sizes of the sets of an index add up to the size of their union,
    as the sets under different keys share no copy. *)
Lemma sum_sizes (D : gset IWorkingCopy) (m : gmap string (gset IWorkingCopy)) :
  map_Forall (fun k s => set_Forall (fun c => key c = k) s) m →
  sum_list_with (fun e => size (filter (fun c => c ∈ D) e.2)) (map_to_list m)
  = size (filter (fun c => c ∈ D) (⋃ (map_to_list m).*2)).
Proof.
  induction m as [|k s m Hk Hfst IH] using map_first_key_ind; intros Hall.
  - by rewrite map_to_list_empty.
  - rewrite map_to_list_insert_first_key by done. simpl.
    apply map_Forall_insert in Hall as [Hs Hm]; [|done].
    rewrite IH by done. rewrite filter_union_L; [|apply _].
    rewrite size_union; [done|].
    intros x [_ Hx]%elem_of_filter [_ Hx']%elem_of_filter.
    apply elem_of_union_list in Hx' as (s' & Hs' & Hxs').
    apply list_elem_of_fmap in Hs' as ([k' s''] & -> & Hks).
    apply elem_of_map_to_list in Hks. simpl in Hxs'.
    pose proof (Hm k' s'' Hks x Hxs') as Hk'. simpl in Hk'.
    pose proof (Hs x Hx) as Hkx. simpl in Hkx. congruence.
Qed.

Lemma dirtyCount_run w :
  index_inv w →
  dirtyCount w
  = (size (filter (fun c => c ∈ dirtyCopies w) (indexedCopies w)), w).
Proof.
  intros Hinv. unfold dirtyCount, indexedCopies.
  rewrite forEachDirty_run. simpl. f_equal. apply sum_sizes.
  intros k s Hs. by destruct (Hinv k s Hs).
Qed.
End QueryLemmas.

Section RunLemmas.
Implicit Types (c : IWorkingCopy) (w : World) (k : string) (h : IDisposable).

Lemma reportsDirty_elem_of w c : reportsDirty w c ↔ c ∈ dirtyCopies w.
Proof. unfold reportsDirty, evalM, Copy.isDirty. simpl. apply bool_decide_eq_true. Qed.

Lemma filter_reportsDirty w (s : gset IWorkingCopy) :
  filter (reportsDirty w) s = filter (fun c => c ∈ dirtyCopies w) s.
Proof.
  apply leibniz_equiv. intros c.
  by rewrite !elem_of_filter, reportsDirty_elem_of.
Qed.

Lemma deliver_run (ls : list (nat * IWorkingCopy)) c w :
  deliver ls c w
  = (tt, mkWorld (mapResourceToWorkingCopy w) (copyListeners w)
                 (nextListener w) (dirtyCopies w)
                 (firedEvents w
                  ++ replicate (length (filter (fun l => l.2 = c) ls)) c)).
Proof.
  revert w. induction ls as [|[n c'] ls IH]; intros w; simpl.
  - unfold mret, M_ret. destruct w; simpl. by rewrite app_nil_r.
  - run_M. rewrite filter_cons. simpl.
    destruct (decide (c' = c)) as [->|Hne].
    + rewrite bool_decide_eq_true_2 by done. simpl. rewrite IH. simpl.
      by rewrite <- app_assoc.
    + rewrite bool_decide_eq_false_2 by done. simpl. by rewrite IH.
Qed.

Lemma setDirty_run c (b : bool) w :
  execM (setDirty c b) w
  = mkWorld (mapResourceToWorkingCopy w) (copyListeners w) (nextListener w)
            (if b then dirtyCopies w ∪ {[c]} else dirtyCopies w ∖ {[c]})
            (firedEvents w ++ replicate (length (subscriptions c w)) c).
Proof.
  unfold execM, setDirty, subscriptions. rewrite deliver_run. simpl.
  by rewrite length_fmap.
Qed.

Lemma dispose_run h w :
  let w' := execM (dispose h) w in
  mapResourceToWorkingCopy w'
  = mapResourceToWorkingCopy (execM (unregisterWorkingCopy (workingCopy h)) w)
  ∧ copyListeners w' = filter (fun l => l.1 ≠ disposables h) (copyListeners w)
  ∧ nextListener w' = nextListener w
  ∧ dirtyCopies w' = dirtyCopies w
  ∧ firedEvents w'
    = firedEvents w
      ++ (if bool_decide (workingCopy h ∈ dirtyCopies w)
          then [workingCopy h] else []).
Proof.
  destruct (unregister_others (workingCopy h) w) as (Hl & Hn & Hd & Hf).
  unfold dispose, execM in *. unfold mbind, M_bind.
  destruct (unregisterWorkingCopy (workingCopy h) w) as [[] w1]. simpl in *.
  by rewrite Hl, Hn, Hd, Hf.
Qed.

Lemma index_inv_same_index w w' :
  mapResourceToWorkingCopy w' = mapResourceToWorkingCopy w →
  index_inv w → index_inv w'.
Proof. unfold index_inv. by intros ->. Qed.

Lemma indexedCopies_same_index w w' :
  mapResourceToWorkingCopy w' = mapResourceToWorkingCopy w →
  indexedCopies w' = indexedCopies w.
Proof. unfold indexedCopies. by intros ->. Qed.

Lemma copiesUnder_same_index k w w' :
  mapResourceToWorkingCopy w' = mapResourceToWorkingCopy w →
  copiesUnder k w' = copiesUnder k w.
Proof. unfold copiesUnder. by intros ->. Qed.

Lemma dispose_inv h w : index_inv w → index_inv (execM (dispose h) w).
Proof.
  intros Hinv. destruct (dispose_run h w) as [Hi _].
  eapply index_inv_same_index; [exact Hi|]. by apply unregister_inv.
Qed.

Lemma dispose_indexed h w :
  index_inv w →
  indexedCopies (execM (dispose h) w) = indexedCopies w ∖ {[workingCopy h]}.
Proof.
  intros Hinv. destruct (dispose_run h w) as [Hi _].
  rewrite (indexedCopies_same_index _ _ Hi). by apply unregister_indexed.
Qed.

Lemma step_run op w :
  execM (step op) w
  = match op with
    | Register c => execM (registerWorkingCopy c) w
    | Dispose h => execM (dispose h) w
    | SetDirty c b => execM (setDirty c b) w
    end.
Proof.
  destruct op; try done. unfold step, execM, mbind, M_bind.
  by destruct (registerWorkingCopy c w).
Qed.

Lemma run_cons op ops w :
  execM (run (op :: ops)) w = execM (run ops) (execM (step op) w).
Proof.
  unfold execM. simpl. unfold mbind, M_bind. by destruct (step op w).
Qed.

Lemma step_inv op w : index_inv w → index_inv (execM (step op) w).
Proof.
  intros Hinv. rewrite step_run. destruct op as [c|h|c b].
  - by apply register_inv.
  - by apply dispose_inv.
  - rewrite setDirty_run. by eapply index_inv_same_index.
Qed.

Lemma step_indexed op w :
  index_inv w →
  indexedCopies (execM (step op) w) = registeredCopies [op] (indexedCopies w).
Proof.
  intros Hinv. rewrite step_run. destruct op as [c|h|c b]; simpl.
  - apply register_indexed.
  - by apply dispose_indexed.
  - by rewrite setDirty_run.
Qed.

Lemma run_inv ops w : index_inv w → index_inv (execM (run ops) w).
Proof.
  revert w. induction ops as [|op ops IH]; intros w Hinv; [done|].
  rewrite run_cons. by apply IH, step_inv.
Qed.

Lemma run_indexed ops w :
  index_inv w →
  indexedCopies (execM (run ops) w) = registeredCopies ops (indexedCopies w).
Proof.
  revert w. induction ops as [|op ops IH]; intros w Hinv; [done|].
  rewrite run_cons, IH by by apply step_inv.
  rewrite step_indexed by done. by destruct op.
Qed.

Lemma indexedCopies_initial : indexedCopies initialWorld = ∅.
Proof. done. Qed.
End RunLemmas.

Section CopiesUnder.
Implicit Types (c : IWorkingCopy) (w : World) (k : string) (h : IDisposable).

Lemma copiesUnder_register c k w :
  copiesUnder k (execM (registerWorkingCopy c) w)
  = if decide (key c = k) then copiesUnder k w ∪ {[c]} else copiesUnder k w.
Proof.
  unfold copiesUnder at 1. rewrite register_index.
  destruct (decide (key c = k)) as [<-|Hne].
  - by rewrite lookup_insert_eq.
  - by rewrite lookup_insert_ne.
Qed.

Lemma copiesUnder_unregister c k w :
  copiesUnder k (execM (unregisterWorkingCopy c) w)
  = if decide (key c = k) then copiesUnder k w ∖ {[c]} else copiesUnder k w.
Proof.
  unfold copiesUnder at 1. rewrite unregister_index.
  destruct (decide (c ∈ _)) as [Hin|Hin].
  - destruct (decide (_ = ∅)) as [He|He].
    + destruct (decide (key c = k)) as [<-|Hne].
      * by rewrite lookup_delete_eq, He.
      * by rewrite lookup_delete_ne.
    + destruct (decide (key c = k)) as [<-|Hne].
      * by rewrite lookup_insert_eq.
      * by rewrite lookup_insert_ne.
  - destruct (decide (key c = k)) as [<-|Hne]; [|done].
    fold (copiesUnder (key c) w). apply leibniz_equiv. intros x.
    rewrite elem_of_difference, elem_of_singleton. split; [|by intros []].
    intros Hx. split; [done|]. by intros ->.
Qed.

Lemma copiesUnder_dispose h k w :
  copiesUnder k (execM (dispose h) w)
  = if decide (key (workingCopy h) = k)
    then copiesUnder k w ∖ {[workingCopy h]} else copiesUnder k w.
Proof.
  destruct (dispose_run h w) as [Hi _].
  rewrite (copiesUnder_same_index _ _ _ Hi). apply copiesUnder_unregister.
Qed.

Lemma registered_lookup c w :
  registered c w →
  mapResourceToWorkingCopy w !! key c = Some (copiesUnder (key c) w).
Proof.
  unfold registered, copiesUnder.
  destruct (mapResourceToWorkingCopy w !! key c); [done|].
  by intros ?%not_elem_of_empty.
Qed.

Lemma once_in_NoDup (l : list IWorkingCopy) c :
  NoDup l → c ∈ l → length (filter (fun x => x = c) l) = 1.
Proof.
  induction 1 as [|x l Hx Hnd IH]; [by intros ?%not_elem_of_nil|].
  rewrite filter_cons. intros [<-|Hc]%elem_of_cons.
  - rewrite decide_True by done. simpl. f_equal.
    destruct (filter (fun y => y = c) l) as [|y l'] eqn:E; [done|].
    assert (y ∈ filter (fun y => y = c) l) as Hy by (rewrite E; left).
    apply list_elem_of_filter in Hy as [-> Hy]. done.
  - rewrite decide_False by by intros ->. by apply IH.
Qed.

Lemma index_inv_keys w :
  index_inv w →
  ∀ k, is_Some (mapResourceToWorkingCopy w !! k)
       ↔ ∃ c, key c = k ∧ registered c w.
Proof.
  intros Hinv k. split.
  - intros [s Hs]. destruct (Hinv k s Hs) as [Hne Hk].
    apply set_choose_L in Hne as [c Hc]. exists c.
    pose proof (Hk c Hc) as Hkc. simpl in Hkc. split; [done|].
    unfold registered, copiesUnder. by rewrite Hkc, Hs.
  - intros (c & <- & Hc). rewrite (registered_lookup c w Hc). by eexists.
Qed.

Lemma dirtyCount_pure w : execM dirtyCount w = w.
Proof. unfold execM, dirtyCount. by rewrite forEachDirty_run. Qed.
End CopiesUnder.

(** ** The scenario of the specification

    Two clean copies of [/f1] are registered; the first becomes dirty, then
    the second; the first is unregistered, then the second. *)
Example registry_scenario :
  let query := b ← isDirty "/f1"; n ← dirtyCount; mret (b, n) in
  let w1 := execM (run [Register copyA; Register copyB]) initialWorld in
  let w2 := execM (setDirty copyA true) w1 in
  let w3 := execM (setDirty copyB true) w2 in
  let w4 := execM (dispose (toDisposable copyA 0)) w3 in
  let w5 := execM (dispose (toDisposable copyB 1)) w4 in
  evalM query w1 = (false, 0) ∧ firedEvents w1 = []
  ∧ evalM query w2 = (true, 1) ∧ firedEvents w2 = [copyA]
  ∧ evalM query w3 = (true, 2) ∧ firedEvents w3 = [copyA; copyB]
  ∧ evalM query w4 = (true, 1) ∧ firedEvents w4 = [copyA; copyB; copyA]
  ∧ evalM query w5 = (false, 0)
  ∧ firedEvents w5 = [copyA; copyB; copyA; copyB]
  ∧ mapResourceToWorkingCopy w5 !! "/f1" = None.
Proof. vm_compute. repeat split. Qed.

(** ** The registry: registration *)

(** C1, as the specification states it, does not hold.  Take the working copy
    [copyA] and the world in which it has been registered once.  Registering
    it a second time leaves two subscriptions on it, so the claimed "exactly
    one subscription" (and with it "exactly one firing") fails. *)
Lemma second_registration_not_noop :
  ¬ (∀ (c : IWorkingCopy) (w : World),
       registered c w →
       let w' := execM (registerWorkingCopy c) w in
       entriesFor c w' = 1
       ∧ length (subscriptions c w') = 1
       ∧ ∀ b, firedEvents (execM (setDirty c b) w') = firedEvents w' ++ [c]).
Proof.
  intros Hclaim.
  destruct (Hclaim copyA (execM (registerWorkingCopy copyA) initialWorld))
    as (_ & Hsubs & _).
  - apply (bool_decide_unpack _). vm_compute. exact I.
  - vm_compute in Hsubs. discriminate Hsubs.
Qed.

(** C1, amended: registering a working copy [c] that is already registered
    under the same resource leaves the index as it is, with exactly one entry
    for [c] in the set of its resource; the call adds one more dirty-change
    subscription on [c], so one subsequent dirty transition of [c] makes the
    service fire once per subscription: one time more than before the
    call. *)
Theorem second_registration_keeps_index_adds_subscription
    (c : IWorkingCopy) (w : World) :
  registered c w →
  let w' := execM (registerWorkingCopy c) w in
  mapResourceToWorkingCopy w' = mapResourceToWorkingCopy w
  ∧ entriesFor c w' = 1
  ∧ subscriptions c w' = subscriptions c w ++ [nextListener w]
  ∧ ∀ b, firedEvents (execM (setDirty c b) w')
         = firedEvents w' ++ replicate (S (length (subscriptions c w))) c.
Proof.
  intros Hreg w'.
  assert (mapResourceToWorkingCopy w' = mapResourceToWorkingCopy w) as Hidx.
  { unfold w'. rewrite register_index. apply insert_id.
    rewrite (registered_lookup c w Hreg). f_equal.
    apply leibniz_equiv. intros x. rewrite elem_of_union, elem_of_singleton.
    split; [by left|]. by intros [?| ->]. }
  assert (subscriptions c w' = subscriptions c w ++ [nextListener w]) as Hsubs.
  { destruct (register_others c w) as (Hl & _). unfold subscriptions, w'.
    rewrite Hl, filter_app, fmap_app. f_equal.
    rewrite filter_cons, decide_True by done. done. }
  split; [done|]. split; [|split; [done|]].
  - unfold entriesFor. rewrite (copiesUnder_same_index _ _ _ Hidx).
    apply once_in_NoDup; [apply NoDup_elements|]. by apply elem_of_elements.
  - intros b. rewrite setDirty_run. cbn [firedEvents]. f_equal.
    rewrite Hsubs, length_app, Nat.add_comm. reflexivity.
Qed.

(** The theorem at [copyA], registered once: after the second registration
    one dirty transition fires twice. *)
Lemma second_registration_keeps_index_adds_subscription_witness :
  let w := execM (registerWorkingCopy copyA) initialWorld in
  registered copyA w
  ∧ firedEvents
      (execM (setDirty copyA true) (execM (registerWorkingCopy copyA) w))
    = [copyA; copyA].
Proof.
  assert (registered copyA (execM (registerWorkingCopy copyA) initialWorld))
    as Hreg by (apply (bool_decide_unpack _); vm_compute; exact I).
  split; [exact Hreg|].
  destruct (second_registration_keeps_index_adds_subscription copyA _ Hreg)
    as (_ & _ & _ & Hfire).
  rewrite (Hfire true). reflexivity.
Defined.

(** ** The registry: disposal of a dirty copy *)

(** C2: when the registration handle of a registered working copy [c] is
    disposed while [c] reports dirty, the service fires exactly one more
    dirty-change event, carrying [c], and the same disposal removes [c] from
    the index. *)
Theorem dispose_dirty_fires_once_and_removes (h : IDisposable) (w : World) :
  index_inv w →
  registered (workingCopy h) w →
  reportsDirty w (workingCopy h) →
  let w' := execM (dispose h) w in
  firedEvents w' = firedEvents w ++ [workingCopy h]
  ∧ ¬ registered (workingCopy h) w'
  ∧ workingCopy h ∉ indexedCopies w'.
Proof.
  intros Hinv Hreg Hdirty w'.
  destruct (dispose_run h w) as (_ & _ & _ & _ & Hf).
  apply reportsDirty_elem_of in Hdirty.
  rewrite bool_decide_eq_true_2 in Hf by done.
  split; [done|]. split.
  - unfold registered, w'. rewrite copiesUnder_dispose, decide_True by done.
    rewrite elem_of_difference, elem_of_singleton. by intros [_ ?].
  - unfold w'. rewrite dispose_indexed by done.
    rewrite elem_of_difference, elem_of_singleton. by intros [_ ?].
Qed.

(** The theorem at [copyA], registered and dirty. *)
Lemma dispose_dirty_fires_once_and_removes_witness :
  let w := execM (run [Register copyA; SetDirty copyA true]) initialWorld in
  let w' := execM (dispose (toDisposable copyA 0)) w in
  firedEvents w' = firedEvents w ++ [copyA]
  ∧ ¬ registered copyA w'
  ∧ copyA ∉ indexedCopies w'.
Proof.
  apply (dispose_dirty_fires_once_and_removes (toDisposable copyA 0)).
  - apply (bool_decide_unpack _). vm_compute. exact I.
  - apply (bool_decide_unpack _). vm_compute. exact I.
  - apply (bool_decide_unpack _). vm_compute. exact I.
Defined.

(** ** The registry: the dirty queries *)

(** C3: after any sequence of operations, [isDirty(r)] answers true exactly
    when some working copy that is currently registered under [r] reports
    dirty; it answers false when no copy is registered under [r]; and it
    leaves the world, the index included, as it was. *)
Theorem isDirty_iff_a_registered_copy_is_dirty (ops : list Op) (r : URI) :
  let w := execM (run ops) initialWorld in
  (evalM (isDirty r) w = true
   ↔ ∃ c, c ∈ registeredCopies ops ∅
          ∧ toString (resource c) = toString r
          ∧ reportsDirty w c)
  ∧ ((∀ c, c ∈ registeredCopies ops ∅ → toString (resource c) ≠ toString r)
     → evalM (isDirty r) w = false)
  ∧ execM (isDirty r) w = w.
Proof.
  intros w.
  assert (index_inv w) as Hinv by apply run_inv, index_inv_initial.
  assert (indexedCopies w = registeredCopies ops ∅) as Hidx.
  { unfold w. by rewrite run_indexed by apply index_inv_initial. }
  destruct (isDirty_run r w) as [Hpure Hval].
  assert (evalM (isDirty r) w = true
          ↔ ∃ c, c ∈ registeredCopies ops ∅
                 ∧ toString (resource c) = toString r
                 ∧ reportsDirty w c) as Hiff.
  { rewrite Hval, <- Hidx. rewrite copiesUnder_filter by done. split.
    - intros (c & [Hk Hc]%elem_of_filter & Hd). exists c.
      by rewrite reportsDirty_elem_of.
    - intros (c & Hc & Hk & Hd). exists c. rewrite elem_of_filter.
      by rewrite <- reportsDirty_elem_of. }
  split; [done|]. split; [|done].
  intros Hnone. apply not_true_is_false. rewrite Hiff.
  intros (c & Hc & Hk & _). by apply (Hnone c).
Qed.

(** C4: after any sequence of operations, [dirtyCount] is the number of
    currently registered working copies, over all resources, that report
    dirty; the registered copies form a set, so each is counted once. *)
Theorem dirtyCount_counts_registered_dirty_copies (ops : list Op) :
  let w := execM (run ops) initialWorld in
  evalM dirtyCount w = size (filter (reportsDirty w) (registeredCopies ops ∅)).
Proof.
  intros w.
  assert (index_inv w) as Hinv by apply run_inv, index_inv_initial.
  unfold evalM. rewrite dirtyCount_run by done. simpl.
  rewrite filter_reportsDirty. unfold w.
  by rewrite run_indexed by apply index_inv_initial.
Qed.

(** ** The registry: the index invariant *)

(** C5: "a key is present in the index exactly when the set stored under it
    is non-empty, that is when at least one working copy is registered for
    that resource" is an invariant: it holds of the initial world, and
    registering a copy, unregistering a copy and disposing a handle preserve
    it; unregistering the last copy of a resource deletes the key. *)
Theorem index_keys_iff_registered_copies
    (c : IWorkingCopy) (h : IDisposable) (w : World) :
  index_inv w →
  index_inv initialWorld
  ∧ Forall (fun w' =>
              index_inv w'
              ∧ ∀ k, is_Some (mapResourceToWorkingCopy w' !! k)
                     ↔ ∃ c', key c' = k ∧ registered c' w')
           [execM (registerWorkingCopy c) w;
            execM (unregisterWorkingCopy c) w;
            execM (dispose h) w]
  ∧ (copiesUnder (key c) w = {[c]} →
     mapResourceToWorkingCopy (execM (unregisterWorkingCopy c) w) !! key c
     = None).
Proof.
  intros Hinv. split; [apply index_inv_initial|]. split.
  - assert (∀ w', index_inv w' →
              index_inv w'
              ∧ ∀ k, is_Some (mapResourceToWorkingCopy w' !! k)
                     ↔ ∃ c', key c' = k ∧ registered c' w') as Hboth.
    { intros w' Hw'. split; [done|]. by apply index_inv_keys. }
    repeat apply Forall_cons_2; [| | |apply Forall_nil_2]; apply Hboth.
    + by apply register_inv.
    + by apply unregister_inv.
    + by apply dispose_inv.
  - intros Hlast. rewrite unregister_index, Hlast.
    rewrite decide_True by by apply elem_of_singleton.
    rewrite decide_True; [apply lookup_delete_eq|].
    apply leibniz_equiv. intros x.
    rewrite elem_of_difference, elem_of_singleton. split; [by intros []|].
    by intros ?%not_elem_of_empty.
Qed.

(** The theorem at the world in which [copyA] alone is registered:
    unregistering it deletes the key of its resource. *)
Lemma index_keys_iff_registered_copies_witness :
  let w := execM (run [Register copyA]) initialWorld in
  index_inv w
  ∧ mapResourceToWorkingCopy (execM (unregisterWorkingCopy copyA) w) !! key copyA
    = None.
Proof.
  assert (index_inv (execM (run [Register copyA]) initialWorld)) as Hinv
    by (apply (bool_decide_unpack _); vm_compute; exact I).
  split; [exact Hinv|].
  destruct (index_keys_iff_registered_copies copyA (toDisposable copyA 0) _ Hinv)
    as (_ & _ & Hlast).
  apply Hlast. vm_compute. reflexivity.
Defined.

(** ** The registry: unregistering what is not registered *)

(** C6, as the specification states it, does not hold.  Register [copyA]
    twice, let it become dirty, and dispose the first handle: [copyA] is no
    longer registered.  Unregistering it once more (the first thing that
    disposing the second handle does) fires one more dirty-change event: the
    world changes. *)
Lemma unregister_unregistered_dirty_copy_fires :
  ¬ (∀ (c : IWorkingCopy) (w : World),
       ¬ registered c w → execM (unregisterWorkingCopy c) w = w).
Proof.
  intros Hclaim.
  pose (w := execM (run [Register copyA; Register copyA; SetDirty copyA true;
                          Dispose (toDisposable copyA 0)]) initialWorld).
  assert (¬ registered copyA w) as Hnot
    by (apply (bool_decide_unpack _); vm_compute; exact I).
  pose proof (f_equal (fun x => length (firedEvents x)) (Hclaim copyA w Hnot))
    as Hlen.
  vm_compute in Hlen. discriminate Hlen.
Qed.

Section Teardown.
Implicit Types (c : IWorkingCopy) (w : World) (h : IDisposable).

Lemma world_eq w w' :
  mapResourceToWorkingCopy w' = mapResourceToWorkingCopy w →
  copyListeners w' = copyListeners w →
  nextListener w' = nextListener w →
  dirtyCopies w' = dirtyCopies w →
  firedEvents w' = firedEvents w →
  w' = w.
Proof. destruct w, w'; simpl. congruence. Qed.

Lemma fired_if_dirty c w :
  (if bool_decide (c ∈ dirtyCopies w) then [c] else [])
  = (if decide (reportsDirty w c) then [c] else []).
Proof.
  destruct (decide (reportsDirty w c)) as [Hr|Hr].
  - rewrite bool_decide_eq_true_2; [done|]. by apply reportsDirty_elem_of.
  - rewrite bool_decide_eq_false_2; [done|]. by rewrite <- reportsDirty_elem_of.
Qed.

Lemma unregister_when_unregistered c w :
  ¬ registered c w →
  mapResourceToWorkingCopy (execM (unregisterWorkingCopy c) w)
  = mapResourceToWorkingCopy w.
Proof. intros Hnot. rewrite unregister_index. by rewrite decide_False. Qed.

Lemma cancel_cancelled (n : nat) (ls : list (nat * IWorkingCopy)) :
  n ∉ ls.*1 → filter (fun l => l.1 ≠ n) ls = ls.
Proof.
  induction ls as [|l ls IH]; intros Hn; [done|].
  rewrite fmap_cons, not_elem_of_cons in Hn. destruct Hn as [Hl Hn].
  rewrite filter_cons, decide_True by by intros ?.
  by rewrite IH.
Qed.

Lemma cancelled_after_cancel (n : nat) (ls : list (nat * IWorkingCopy)) :
  n ∉ (filter (fun l => l.1 ≠ n) ls).*1.
Proof.
  intros (l & -> & [Hl _]%list_elem_of_filter)%list_elem_of_fmap. done.
Qed.
End Teardown.

(** C6, amended: unregistering a working copy [c] that is not registered
    raises no error and leaves the index and the dirty flags unchanged.  The
    private [unregisterWorkingCopy] leaves the subscriptions unchanged too;
    disposing a handle of [c] cancels the subscription of that handle, if it
    is still in use, and no other.  Besides, one dirty-change event for [c]
    is fired exactly when [c] reports dirty.  So for a clean [c]
    [unregisterWorkingCopy] is a no-op, and so is the disposal of a handle
    whose subscription is cancelled already.  Teardown is idempotent up to
    that event: once a handle has been disposed, in any world, its copy is
    unregistered and its subscription cancelled, and disposing it again
    leaves index, subscriptions and dirty flags as they are, fires one more
    event if the copy reports dirty, and is a no-op if it reports clean. *)
Theorem unregister_unregistered_copy (h : IDisposable) (w : World) :
  ¬ registered (workingCopy h) w →
  let c := workingCopy h in
  let fired := fun w0 => if decide (reportsDirty w0 c) then [c] else [] in
  let wu := execM (unregisterWorkingCopy c) w in
  let wd := execM (dispose h) w in
  (mapResourceToWorkingCopy wu = mapResourceToWorkingCopy w
   ∧ copyListeners wu = copyListeners w
   ∧ dirtyCopies wu = dirtyCopies w
   ∧ firedEvents wu = firedEvents w ++ fired w
   ∧ (¬ reportsDirty w c → wu = w))
  ∧ (mapResourceToWorkingCopy wd = mapResourceToWorkingCopy w
     ∧ copyListeners wd
       = filter (fun l => l.1 ≠ disposables h) (copyListeners w)
     ∧ dirtyCopies wd = dirtyCopies w
     ∧ firedEvents wd = firedEvents w ++ fired w
     ∧ (disposables h ∉ (copyListeners w).*1 →
        copyListeners wd = copyListeners w
        ∧ (¬ reportsDirty w c → wd = w)))
  ∧ (∀ w0,
       let w1 := execM (dispose h) w0 in
       let w2 := execM (dispose h) w1 in
       ¬ registered c w1
       ∧ (disposables h ∉ (copyListeners w1).*1)
       ∧ mapResourceToWorkingCopy w2 = mapResourceToWorkingCopy w1
       ∧ copyListeners w2 = copyListeners w1
       ∧ dirtyCopies w2 = dirtyCopies w1
       ∧ firedEvents w2 = firedEvents w1 ++ fired w1
       ∧ (¬ reportsDirty w1 c → w2 = w1)).
Proof.
  intros Hnot c fired wu wd.
  assert (∀ w0, ¬ registered c w0 →
            let wu0 := execM (unregisterWorkingCopy c) w0 in
            mapResourceToWorkingCopy wu0 = mapResourceToWorkingCopy w0
            ∧ copyListeners wu0 = copyListeners w0
            ∧ dirtyCopies wu0 = dirtyCopies w0
            ∧ firedEvents wu0 = firedEvents w0 ++ fired w0
            ∧ (¬ reportsDirty w0 c → wu0 = w0)) as Hunreg.
  { intros w0 Hnot0 wu0.
    destruct (unregister_others c w0) as (Hl & Hn & Hd & Hf).
    fold wu0 in Hl, Hn, Hd, Hf. rewrite fired_if_dirty in Hf.
    pose proof (unregister_when_unregistered c w0 Hnot0) as Hi. fold wu0 in Hi.
    repeat split; try done.
    intros Hclean. apply world_eq; try done.
    rewrite Hf. unfold fired. by rewrite decide_False, app_nil_r. }
  assert (∀ w0, ¬ registered c w0 →
            let wd0 := execM (dispose h) w0 in
            mapResourceToWorkingCopy wd0 = mapResourceToWorkingCopy w0
            ∧ copyListeners wd0
              = filter (fun l => l.1 ≠ disposables h) (copyListeners w0)
            ∧ dirtyCopies wd0 = dirtyCopies w0
            ∧ firedEvents wd0 = firedEvents w0 ++ fired w0
            ∧ (disposables h ∉ (copyListeners w0).*1 →
               copyListeners wd0 = copyListeners w0
               ∧ (¬ reportsDirty w0 c → wd0 = w0))) as Hdisp.
  { intros w0 Hnot0 wd0.
    destruct (dispose_run h w0) as (Hi & Hl & Hn & Hd & Hf).
    fold wd0 in Hi, Hl, Hn, Hd, Hf. fold c in Hi, Hf.
    rewrite fired_if_dirty in Hf.
    rewrite (unregister_when_unregistered c w0 Hnot0) in Hi.
    repeat split; try done.
    - rewrite Hl. by apply cancel_cancelled.
    - intros Hclean. apply world_eq; try done.
      + rewrite Hl. by apply cancel_cancelled.
      + rewrite Hf. unfold fired. by rewrite decide_False, app_nil_r. }
  split; [by apply Hunreg|]. split; [by apply Hdisp|].
  intros w0 w1 w2.
  assert (¬ registered c w1) as Hnot1.
  { unfold registered, w1. rewrite copiesUnder_dispose, decide_True by done.
    rewrite elem_of_difference, elem_of_singleton. by intros [_ ?]. }
  assert (disposables h ∉ (copyListeners w1).*1) as Hgone.
  { destruct (dispose_run h w0) as (_ & Hl & _). fold w1 in Hl. rewrite Hl.
    apply cancelled_after_cancel. }
  destruct (Hdisp w1 Hnot1) as (Hi & _ & Hd & Hf & Hrest).
  destruct (Hrest Hgone) as [Hl Hnoop].
  repeat split; done.
Qed.

(** The theorem at [copyA], registered twice and clean, after the first
    handle is disposed: disposing the second handle cancels the second
    subscription and changes nothing else; disposing it again is a no-op. *)
Lemma unregister_unregistered_copy_witness :
  let w := execM (run [Register copyA; Register copyA;
                       Dispose (toDisposable copyA 0)]) initialWorld in
  let h := toDisposable copyA 1 in
  ¬ registered copyA w
  ∧ execM (unregisterWorkingCopy copyA) w = w
  ∧ copyListeners w = [(1, copyA)]
  ∧ copyListeners (execM (dispose h) w) = []
  ∧ execM (dispose h) (execM (dispose h) w) = execM (dispose h) w.
Proof.
  assert (¬ registered copyA
            (execM (run [Register copyA; Register copyA;
                         Dispose (toDisposable copyA 0)]) initialWorld))
    as Hnot by (apply (bool_decide_unpack _); vm_compute; exact I).
  split; [exact Hnot|].
  destruct (unregister_unregistered_copy (toDisposable copyA 1) _ Hnot)
    as ((_ & _ & _ & _ & Hnoop) & (_ & Hl & _) & Hagain).
  assert (∀ w0, ¬ reportsDirty w0 copyA
                ↔ bool_decide (reportsDirty w0 copyA) = false) as Hdec.
  { intros w0. by rewrite bool_decide_eq_false. }
  split; [apply Hnoop, Hdec; vm_compute; reflexivity|].
  split; [vm_compute; reflexivity|].
  split; [etransitivity; [exact Hl|]; vm_compute; reflexivity|].
  destruct (Hagain (execM (run [Register copyA; Register copyA;
                                Dispose (toDisposable copyA 0)]) initialWorld))
    as (_ & _ & _ & _ & _ & _ & Hsame).
  apply Hsame, Hdec. vm_compute. reflexivity.
Defined.

(** ** The registry: two handles for one copy *)

(** C10: registration is not reference-counted.  Register a working copy [c]
    twice; dispose either of the two handles.  Then [c] is gone from the
    index: [isDirty] on its resource depends on the other copies of that
    resource only, and [dirtyCount] counts the other registered copies only,
    whatever [c] reports.  The subscription of the other handle is still
    active. *)
Theorem registration_not_reference_counted (c : IWorkingCopy) (w : World) :
  index_inv w →
  let h1 := evalM (registerWorkingCopy c) w in
  let w1 := execM (registerWorkingCopy c) w in
  let h2 := evalM (registerWorkingCopy c) w1 in
  let w2 := execM (registerWorkingCopy c) w1 in
  ∀ h h', (h = h1 ∧ h' = h2) ∨ (h = h2 ∧ h' = h1) →
    let w3 := execM (dispose h) w2 in
    ¬ registered c w3
    ∧ (c ∉ indexedCopies w3)
    ∧ (evalM (isDirty (resource c)) w3 = true
       ↔ ∃ c', c' ≠ c ∧ c' ∈ copiesUnder (key c) w ∧ reportsDirty w3 c')
    ∧ evalM dirtyCount w3
      = size (filter (reportsDirty w3) (indexedCopies w ∖ {[c]}))
    ∧ disposables h' ∈ subscriptions c w3.
Proof.
  intros Hinv h1 w1 h2 w2 h h' Hh w3.
  destruct (register_others c w) as (Hl1 & Hn1 & _ & _ & Hh1).
  destruct (register_others c w1) as (Hl2 & Hn2 & _ & _ & Hh2).
  fold w1 in Hl1, Hn1. fold h1 in Hh1. fold w2 in Hl2, Hn2. fold h2 in Hh2.
  assert (index_inv w2) as Hinv2 by by apply register_inv, register_inv.
  assert (workingCopy h = c) as Hc.
  { destruct Hh as [[-> _]|[-> _]]; [by rewrite Hh1|by rewrite Hh2]. }
  assert (index_inv w3) as Hinv3 by by apply dispose_inv.
  assert (indexedCopies w3 = indexedCopies w ∖ {[c]}) as Hidx.
  { unfold w3. rewrite dispose_indexed by done. rewrite Hc. unfold w2, w1.
    rewrite !register_indexed. apply leibniz_equiv. intros x.
    rewrite !elem_of_difference, !elem_of_union, !elem_of_singleton.
    split; [by intros [[[?|?]|?] ?]|]. intros [? ?]. split; [|done].
    left. by left. }
  assert (copiesUnder (key c) w3 = copiesUnder (key c) w ∖ {[c]}) as Hunder.
  { rewrite !copiesUnder_filter by done. rewrite Hidx.
    apply leibniz_equiv. intros x.
    rewrite !elem_of_filter, !elem_of_difference, !elem_of_filter.
    split; [by intros (? & ? & ?)|by intros ((? & ?) & ?)]. }
  split; [|split; [|split; [|split]]].
  - unfold registered. rewrite Hunder, elem_of_difference, elem_of_singleton.
    by intros [_ ?].
  - rewrite Hidx, elem_of_difference, elem_of_singleton. by intros [_ ?].
  - destruct (isDirty_run (resource c) w3) as [_ ->].
    fold (key c). rewrite Hunder. split.
    + intros (c' & [Hc' Hne]%elem_of_difference & Hd). exists c'.
      rewrite elem_of_singleton in Hne. by rewrite reportsDirty_elem_of.
    + intros (c' & Hne & Hc' & Hd). exists c'.
      rewrite elem_of_difference, elem_of_singleton.
      by rewrite <- reportsDirty_elem_of.
  - unfold evalM. rewrite dirtyCount_run by done. simpl.
    by rewrite filter_reportsDirty, Hidx.
  - destruct (dispose_run h w2) as (_ & Hl3 & _). fold w3 in Hl3.
    unfold subscriptions. rewrite Hl3, Hl2, Hl1, Hn1.
    apply list_elem_of_fmap.
    destruct Hh as [[-> ->]|[-> ->]]; rewrite Hh1, Hh2, Hn1; simpl.
    + exists (S (nextListener w), c). split; [done|].
      rewrite !list_elem_of_filter. simpl. repeat split; [lia|].
      apply elem_of_app. right. by apply list_elem_of_singleton.
    + exists (nextListener w, c). split; [done|].
      rewrite !list_elem_of_filter. simpl. repeat split; [lia|].
      apply elem_of_app. left. apply elem_of_app. right.
      by apply list_elem_of_singleton.
Qed.

(** The theorem at a dirty [copyA], registered twice next to a clean
    [copyB]: the first handle is disposed, the subscription of the second
    remains. *)
Lemma registration_not_reference_counted_witness :
  let w := execM (run [Register copyB; SetDirty copyA true]) initialWorld in
  let w2 := execM (run [Register copyA; Register copyA]) w in
  let w3 := execM (dispose (toDisposable copyA 1)) w2 in
  index_inv w
  ∧ ¬ registered copyA w3
  ∧ evalM dirtyCount w3 = 0
  ∧ subscriptions copyA w3 = [2].
Proof.
  assert (index_inv
            (execM (run [Register copyB; SetDirty copyA true]) initialWorld))
    as Hinv by (apply (bool_decide_unpack _); vm_compute; exact I).
  split; [exact Hinv|].
  destruct (registration_not_reference_counted copyA _ Hinv
              (toDisposable copyA 1) (toDisposable copyA 2))
    as (Hnot & _ & _ & _ & _).
  { left. split; reflexivity. }
  split; [exact Hnot|]. split; vm_compute; reflexivity.
Defined.

(** ** The tracker: the dirty indicator *)

(** C7: when the tracker receives a dirty-change event for a copy that
    declares the auto-save capability while the save policy is auto-save
    after a short delay, the handler returns at once: the tracker, and so its
    badge and its [lastKnownDirtyCount], are what they were, whatever the
    world (and so [dirtyCount]) has become. *)
Theorem auto_saved_copy_leaves_indicator
    (AutoSave : Z) (VIEWLET_ID : string) (sv : Services)
    (w : World) (copy : IWorkingCopy) (t : DirtyFilesTracker) :
  band (capabilities copy) AutoSave ≠ 0%Z →
  getAutoSaveMode sv = AFTER_SHORT_DELAY →
  let t' := onWorkingCopyDidChangeDirty AutoSave VIEWLET_ID sv w copy t in
  t' = t
  ∧ badgeHandle t' = badgeHandle t
  ∧ lastKnownDirtyCount t' = lastKnownDirtyCount t.
Proof.
  intros Hcap Hmode t'.
  assert (t' = t) as ->; [|done].
  unfold t', onWorkingCopyDidChangeDirty.
  destruct (Z.eqb_spec (band (capabilities copy) AutoSave) 0) as [Hz|Hz];
    [done|].
  by rewrite bool_decide_eq_true_2.
Qed.

(** The theorem at [copyB], which has bit 2 set, with 2 for the auto-save
    capability: [dirtyCount] is 1 and the tracker still holds 0. *)
Lemma auto_saved_copy_leaves_indicator_witness :
  let w := execM (run [Register copyB; SetDirty copyB true]) initialWorld in
  let t := mkTracker (Some 0) None [] in
  evalM dirtyCount w = 1
  ∧ onWorkingCopyDidChangeDirty 2 "workbench.view.explorer" sampleServices
      w copyB t = t.
Proof.
  split; [vm_compute; reflexivity|].
  apply (auto_saved_copy_leaves_indicator 2 "workbench.view.explorer"
           sampleServices _ copyB).
  - vm_compute. discriminate.
  - reflexivity.
Defined.

(** C8: when the indicator recomputes it reads [dirtyCount] from the
    service and remembers it; if the count is zero the badge is cleared; if
    not, a badge with that number is shown, labelled "1 unsaved file" for the
    count 1 and "N unsaved files" for any other count N. *)
Theorem updateActivityBadge_shows_dirtyCount
    (VIEWLET_ID : string) (w : World) (t : DirtyFilesTracker) :
  let n := evalM dirtyCount w in
  let t' := updateActivityBadge VIEWLET_ID w t in
  lastKnownDirtyCount t' = Some n
  ∧ (n = 0 → badgeHandle t' = None)
  ∧ (n ≠ 0 →
     ∃ a, badgeHandle t' = Some a
          ∧ number (badge a) = n
          ∧ getDescription (badge a)
            = if decide (n = 1) then "1 unsaved file"
              else (string_of_nat n +:+ " unsaved files")%string).
Proof.
  intros n t'. unfold t', updateActivityBadge. fold n.
  destruct (Nat.ltb_spec 0 n) as [Hpos|Hzero]; simpl.
  - split; [done|]. split; [lia|]. intros _. eexists. split; [done|].
    split; [done|]. unfold getDescription. simpl.
    destruct (Nat.eqb_spec n 1) as [->|Hne].
    + by rewrite decide_True.
    + by rewrite decide_False.
  - split; [done|]. split; [done|]. lia.
Qed.

(** ** The tracker: opening dirty files *)

Section Distinct.
Context {T : Type} (keyFn : T -> string).

Lemma distinctFrom_elem (seen : gset string) (array : list T) (x : T) :
  x ∈ distinctFrom seen keyFn array → x ∈ array ∧ keyFn x ∉ seen.
Proof.
  revert seen. induction array as [|elem rest IH]; intros seen; simpl.
  - by intros ?%not_elem_of_nil.
  - destruct (decide (keyFn elem ∈ seen)) as [Hseen|Hseen].
    + intros [Hx Hk]%IH. split; [by right|done].
    + intros [->|[Hx Hk]%IH]%elem_of_cons; [split; [by left|done]|].
      split; [by right|]. intros Hin. apply Hk, elem_of_union_r, Hin.
Qed.

Lemma distinctFrom_keys (seen : gset string) (array : list T) (x : T) :
  x ∈ array → keyFn x ∉ seen →
  keyFn x ∈ keyFn <$> distinctFrom seen keyFn array.
Proof.
  revert seen. induction array as [|elem rest IH]; intros seen; simpl.
  - by intros ?%not_elem_of_nil.
  - intros Hx Hk. destruct (decide (keyFn elem ∈ seen)) as [Hseen|Hseen].
    + apply elem_of_cons in Hx as [->|Hx]; [done|]. by apply IH.
    + rewrite fmap_cons. destruct (decide (keyFn x = keyFn elem)) as [->|Hne].
      * by left.
      * right. apply elem_of_cons in Hx as [->|Hx]; [done|]. apply IH; [done|].
        rewrite elem_of_union, elem_of_singleton. by intros [?|?].
Qed.

Lemma distinctFrom_NoDup (seen : gset string) (array : list T) :
  NoDup (keyFn <$> distinctFrom seen keyFn array).
Proof.
  revert seen. induction array as [|elem rest IH]; intros seen; simpl.
  - apply NoDup_nil_2.
  - destruct (decide (keyFn elem ∈ seen)) as [Hseen|Hseen]; [apply IH|].
    rewrite fmap_cons. apply NoDup_cons_2; [|apply IH].
    intros (y & Hy & [_ Hk]%distinctFrom_elem)%list_elem_of_fmap.
    apply Hk. rewrite Hy. apply elem_of_union_l. by apply elem_of_singleton.
Qed.
End Distinct.

(** C9: on a batch of file-level dirty notifications the tracker makes one
    request to the editor host, for exactly the resources of the batch that
    have a dirty model not in the pending-save state and that are not open
    in an editor; no two requested resources have the same string form; each
    is requested inactive, pinned and with preserved focus. *)
Theorem onTextFilesDirty_opens_dirty_unopened
    (sv : Services) (e : list TextFileModelChangeEvent.t)
    (t : DirtyFilesTracker) :
  ∃ batch,
    openEditors (onTextFilesDirty sv e t) = openEditors t ++ [batch]
    ∧ (∀ r, r ∈ input_resource <$> batch
            ↔ r ∈ TextFileModelChangeEvent.resource <$> e
              ∧ (∃ m, models_get sv r = Some m
                      ∧ TextFileModel.isDirty m = true
                      ∧ TextFileModel.hasState m PENDING_SAVE = false)
              ∧ isOpen sv r = false)
    ∧ NoDup (toString <$> (input_resource <$> batch))
    ∧ Forall (fun i => options i = mkEditorOptions true true true) batch.
Proof.
  set (rs := map TextFileModelChangeEvent.resource
                 (List.filter (becameDirtyUnopened sv) e)).
  exists (map (fun resource =>
                 mkResourceInput resource (mkEditorOptions true true true))
              (distinct rs toString)).
  split; [reflexivity|].
  assert (∀ r, r ∈ rs
               ↔ r ∈ TextFileModelChangeEvent.resource <$> e
                 ∧ (∃ m, models_get sv r = Some m
                         ∧ TextFileModel.isDirty m = true
                         ∧ TextFileModel.hasState m PENDING_SAVE = false)
                 ∧ isOpen sv r = false) as Hrs.
  { intros r. unfold rs. rewrite list_elem_of_In, in_map_iff.
    setoid_rewrite filter_In. setoid_rewrite <- list_elem_of_In.
    rewrite list_elem_of_fmap. unfold becameDirtyUnopened. split.
    - intros (ev & <- & Hev & Hb).
      apply andb_true_iff in Hb as [Hm Ho].
      destruct (models_get sv (TextFileModelChangeEvent.resource ev))
        as [m|] eqn:Em; [|done].
      apply andb_true_iff in Hm as [Hd Hp].
      apply negb_true_iff in Hp, Ho. split; [by exists ev|].
      split; [by exists m|done].
    - intros ((ev & -> & Hev) & (m & Em & Hd & Hp) & Ho). exists ev.
      split; [done|]. split; [done|]. by rewrite Em, Hd, Hp, Ho. }
  assert (∀ l : list URI,
            input_resource
              <$> map (fun resource =>
                         mkResourceInput resource (mkEditorOptions true true true)) l
            = l) as Hmap.
  { intros l. induction l as [|x l IH]; [done|].
    cbn [map]. rewrite fmap_cons. cbn [input_resource]. by rewrite IH. }
  rewrite Hmap. split; [|split].
  - intros r. rewrite <- Hrs. unfold distinct. split.
    + by intros [? _]%distinctFrom_elem.
    + intros Hr.
      pose proof (distinctFrom_keys toString ∅ rs r Hr) as Hk.
      unfold toString in *. rewrite list_fmap_id in Hk.
      apply Hk. apply not_elem_of_empty.
  - apply distinctFrom_NoDup.
  - apply Forall_forall. intros i Hi.
    apply list_elem_of_In, in_map_iff in Hi as (r & <- & _). done.
Qed.

(** * Further properties of the service *)

Section Counting.
Implicit Types (c : IWorkingCopy) (w : World) (X D : gset IWorkingCopy).

Lemma bool_eq_of_iff (b1 b2 : bool) : (b1 = true ↔ b2 = true) → b1 = b2.
Proof. destruct b1, b2; intros [H1 H2]; try done; [by rewrite H1|by rewrite H2]. Qed.

Lemma size_filter_add (P : IWorkingCopy → Prop) `{!∀ x, Decision (P x)} X c :
  c ∉ X →
  size (filter P (X ∪ {[c]}))
  = size (filter P X) + (if decide (P c) then 1 else 0).
Proof.
  intros Hc. rewrite filter_union_L; [|apply _].
  rewrite size_union.
  - f_equal. destruct (decide (P c)) as [Hp|Hp].
    + rewrite (filter_singleton_True_L (C:=gset IWorkingCopy) P c Hp).
      apply size_singleton.
    + rewrite (filter_singleton_False_L (C:=gset IWorkingCopy) P c Hp).
      apply size_empty.
  - intros x [_ Hx]%elem_of_filter [_ Hx']%elem_of_filter.
    apply elem_of_singleton in Hx'. by subst x.
Qed.

Lemma size_filter_remove (P : IWorkingCopy → Prop) `{!∀ x, Decision (P x)} X c :
  c ∈ X →
  size (filter P (X ∖ {[c]})) + (if decide (P c) then 1 else 0)
  = size (filter P X).
Proof.
  intros Hc. rewrite <- size_filter_add.
  - f_equal. f_equal. apply leibniz_equiv. intros x.
    rewrite elem_of_union, elem_of_difference, elem_of_singleton.
    split; [by intros [[? _]| ->]|]. intros Hx.
    destruct (decide (x = c)); [by right|by left].
  - rewrite elem_of_difference, elem_of_singleton. by intros [_ ?].
Qed.

Lemma dirtyCount_value w :
  index_inv w →
  evalM dirtyCount w = size (filter (reportsDirty w) (indexedCopies w)).
Proof.
  intros Hinv. unfold evalM. rewrite dirtyCount_run by done. simpl.
  by rewrite filter_reportsDirty.
Qed.

Lemma filter_reportsDirty_same w w' X :
  dirtyCopies w' = dirtyCopies w →
  filter (reportsDirty w') X = filter (reportsDirty w) X.
Proof. intros Hd. by rewrite !filter_reportsDirty, Hd. Qed.

Lemma isDirty_same w w' (r : URI) :
  mapResourceToWorkingCopy w' = mapResourceToWorkingCopy w →
  dirtyCopies w' = dirtyCopies w →
  evalM (isDirty r) w' = evalM (isDirty r) w.
Proof.
  intros Hi Hd. apply bool_eq_of_iff.
  destruct (isDirty_run r w) as [_ ->]. destruct (isDirty_run r w') as [_ ->].
  by rewrite (copiesUnder_same_index _ _ _ Hi), Hd.
Qed.

Lemma dirtyCount_same w w' :
  mapResourceToWorkingCopy w' = mapResourceToWorkingCopy w →
  dirtyCopies w' = dirtyCopies w →
  evalM dirtyCount w' = evalM dirtyCount w.
Proof.
  intros Hi Hd. unfold evalM, dirtyCount.
  by rewrite !forEachDirty_run, Hi, Hd.
Qed.
End Counting.

(** X1: [registerWorkingCopy(c)] puts [c] into the set of its own resource
    and leaves the set of every other key as it is; it fires no event and
    changes no dirty flag; the handle it returns carries [c] and the fresh
    subscription. *)
Theorem register_adds_copy_silently (c : IWorkingCopy) (w : World) :
  let w' := execM (registerWorkingCopy c) w in
  registered c w'
  ∧ (∀ k, copiesUnder k w'
          = if decide (key c = k) then copiesUnder k w ∪ {[c]}
            else copiesUnder k w)
  ∧ firedEvents w' = firedEvents w
  ∧ dirtyCopies w' = dirtyCopies w
  ∧ evalM (registerWorkingCopy c) w = toDisposable c (nextListener w)
  ∧ nextListener w ∈ subscriptions c w'.
Proof.
  intros w'. destruct (register_others c w) as (Hl & _ & Hd & Hf & Hh).
  fold w' in Hl, Hd, Hf.
  split; [|split; [|split; [|split; [|split]]]]; try done.
  - unfold registered, w'. rewrite copiesUnder_register, decide_True by done.
    apply elem_of_union_r. by apply elem_of_singleton.
  - intros k. apply copiesUnder_register.
  - unfold subscriptions. rewrite Hl. apply list_elem_of_fmap.
    exists (nextListener w, c). split; [done|].
    apply list_elem_of_filter. split; [done|].
    apply elem_of_app. right. by apply list_elem_of_singleton.
Qed.

(** X2: registering a copy changes [dirtyCount] without any event: the count
    grows by one exactly when the copy reports dirty and was not registered
    before, and nothing is fired either way. *)
Theorem register_changes_dirtyCount_without_event
    (c : IWorkingCopy) (w : World) :
  index_inv w →
  let w' := execM (registerWorkingCopy c) w in
  evalM dirtyCount w'
  = evalM dirtyCount w
    + (if decide (reportsDirty w c ∧ ¬ registered c w) then 1 else 0)
  ∧ firedEvents w' = firedEvents w.
Proof.
  intros Hinv w'. destruct (register_others c w) as (_ & _ & Hd & Hf & _).
  fold w' in Hd, Hf. split; [|done].
  rewrite !dirtyCount_value by (try apply register_inv; done).
  unfold w'. rewrite register_indexed. fold w'.
  rewrite (filter_reportsDirty_same w w') by done.
  destruct (decide (registered c w)) as [Hreg|Hreg].
  - rewrite decide_False by by intros [_ ?]. rewrite Nat.add_0_r. f_equal. f_equal.
    apply indexed_iff_registered in Hreg; [|done].
    apply leibniz_equiv. intros x. rewrite elem_of_union, elem_of_singleton.
    split; [by intros [?| ->]|by left].
  - rewrite size_filter_add.
    + f_equal. destruct (decide (reportsDirty w c)) as [Hr|Hr].
      * by rewrite decide_True.
      * rewrite decide_False; [done|]. by intros [? _].
    + by rewrite indexed_iff_registered.
Qed.

(** The theorem at a dirty, unregistered [copyA]. *)
Lemma register_changes_dirtyCount_without_event_witness :
  let w := execM (run [Register copyB; SetDirty copyA true]) initialWorld in
  let w' := execM (registerWorkingCopy copyA) w in
  index_inv w
  ∧ evalM dirtyCount w = 0 ∧ evalM dirtyCount w' = 1
  ∧ firedEvents w' = firedEvents w.
Proof.
  assert (index_inv
            (execM (run [Register copyB; SetDirty copyA true]) initialWorld))
    as Hinv by (apply (bool_decide_unpack _); vm_compute; exact I).
  split; [exact Hinv|].
  destruct (register_changes_dirtyCount_without_event copyA _ Hinv)
    as [Hcount Hfired].
  split; [vm_compute; reflexivity|]. split; [|exact Hfired].
  rewrite Hcount. vm_compute. reflexivity.
Defined.

(** X3: disposing a handle lowers [dirtyCount] by one exactly when its copy
    was registered and reports dirty, and leaves it as it is otherwise. *)
Theorem dispose_lowers_dirtyCount (h : IDisposable) (w : World) :
  index_inv w →
  evalM dirtyCount (execM (dispose h) w)
  + (if decide (registered (workingCopy h) w ∧ reportsDirty w (workingCopy h))
     then 1 else 0)
  = evalM dirtyCount w.
Proof.
  intros Hinv. destruct (dispose_run h w) as (_ & _ & _ & Hd & _).
  rewrite !dirtyCount_value by (try apply dispose_inv; done).
  rewrite dispose_indexed by done.
  rewrite (filter_reportsDirty_same w _) by done.
  destruct (decide (registered (workingCopy h) w)) as [Hreg|Hreg].
  - rewrite <- (size_filter_remove (reportsDirty w) (indexedCopies w)
                  (workingCopy h)) by by apply indexed_iff_registered.
    f_equal. destruct (decide (reportsDirty w (workingCopy h))) as [Hr|Hr].
    + by rewrite decide_True.
    + rewrite decide_False; [done|]. by intros [_ ?].
  - rewrite decide_False by by intros [? _]. rewrite Nat.add_0_r. f_equal. f_equal.
    apply leibniz_equiv. intros x.
    rewrite elem_of_difference, elem_of_singleton. split; [by intros []|].
    intros Hx. split; [done|]. intros ->.
    by apply Hreg, indexed_iff_registered.
Qed.

(** The theorem at a dirty [copyA] registered next to a dirty [copyB]. *)
Lemma dispose_lowers_dirtyCount_witness :
  let w := execM (run [Register copyA; Register copyB; SetDirty copyA true;
                       SetDirty copyB true]) initialWorld in
  index_inv w
  ∧ evalM dirtyCount (execM (dispose (toDisposable copyA 0)) w) + 1 = 2.
Proof.
  assert (index_inv
            (execM (run [Register copyA; Register copyB; SetDirty copyA true;
                         SetDirty copyB true]) initialWorld))
    as Hinv by (apply (bool_decide_unpack _); vm_compute; exact I).
  split; [exact Hinv|].
  pose proof (dispose_lowers_dirtyCount (toDisposable copyA 0) _ Hinv) as Hcount.
  vm_compute in Hcount. vm_compute. exact Hcount.
Defined.

Section MoreCounting.
Implicit Types (c : IWorkingCopy) (w : World) (X : gset IWorkingCopy).

Lemma filter_agree (P Q : IWorkingCopy → Prop)
    `{!∀ x, Decision (P x)} `{!∀ x, Decision (Q x)} X :
  (∀ x, x ∈ X → P x ↔ Q x) → filter P X = filter Q X.
Proof.
  intros Hpq. apply leibniz_equiv. intros x. rewrite !elem_of_filter.
  split; intros [Hp Hx]; (split; [by apply (Hpq x Hx)|done]).
Qed.

Lemma reportsDirty_setDirty c (b : bool) w x :
  reportsDirty (execM (setDirty c b) w) x
  ↔ if decide (x = c) then b = true else reportsDirty w x.
Proof.
  rewrite !reportsDirty_elem_of, setDirty_run. simpl.
  destruct (decide (x = c)) as [->|Hne]; destruct b.
  - rewrite elem_of_union, elem_of_singleton. split; [done|intros _; by right].
  - rewrite elem_of_difference, elem_of_singleton. split; [by intros [_ ?]|done].
  - rewrite reportsDirty_elem_of, elem_of_union, elem_of_singleton.
    split; [by intros [?|?]|intros ?; by left].
  - rewrite reportsDirty_elem_of, elem_of_difference, elem_of_singleton.
    split; [by intros [? _]|done].
Qed.

Lemma setDirty_index c (b : bool) w :
  mapResourceToWorkingCopy (execM (setDirty c b) w) = mapResourceToWorkingCopy w.
Proof. by rewrite setDirty_run. Qed.
End MoreCounting.

(** X4: a dirty transition of a registered copy moves [dirtyCount] by the
    change of that copy's flag, and a transition of a copy that is not
    registered does not move it. *)
Theorem setDirty_moves_dirtyCount (c : IWorkingCopy) (b : bool) (w : World) :
  index_inv w →
  let w' := execM (setDirty c b) w in
  (registered c w →
   evalM dirtyCount w' + (if decide (reportsDirty w c) then 1 else 0)
   = evalM dirtyCount w + (if b then 1 else 0))
  ∧ (¬ registered c w → evalM dirtyCount w' = evalM dirtyCount w).
Proof.
  intros Hinv w'.
  assert (index_inv w') as Hinv'
    by (eapply index_inv_same_index; [apply setDirty_index|done]).
  rewrite !dirtyCount_value by done.
  rewrite (indexedCopies_same_index w w') by apply setDirty_index.
  assert (filter (reportsDirty w') (indexedCopies w ∖ {[c]})
          = filter (reportsDirty w) (indexedCopies w ∖ {[c]})) as Hrest.
  { apply filter_agree. intros x [_ Hx]%elem_of_difference.
    rewrite elem_of_singleton in Hx. unfold w'.
    by rewrite reportsDirty_setDirty, decide_False. }
  split.
  - intros Hreg%indexed_iff_registered; [|done].
    rewrite <- (size_filter_remove (reportsDirty w') (indexedCopies w) c) by done.
    rewrite <- (size_filter_remove (reportsDirty w) (indexedCopies w) c) by done.
    rewrite Hrest.
    assert ((if decide (reportsDirty w' c) then 1 else 0) = (if b then 1 else 0))
      as ->; [|lia].
    destruct (decide (reportsDirty w' c)) as [Hr|Hr];
      unfold w' in Hr; rewrite reportsDirty_setDirty, decide_True in Hr by done;
      by destruct b.
  - intros Hreg. f_equal. apply filter_agree. intros x Hx. unfold w'.
    rewrite reportsDirty_setDirty, decide_False; [done|]. intros ->.
    by apply Hreg, indexed_iff_registered.
Qed.

(** The theorem at a registered clean [copyA] that becomes dirty. *)
Lemma setDirty_moves_dirtyCount_witness :
  let w := execM (run [Register copyA]) initialWorld in
  index_inv w
  ∧ evalM dirtyCount (execM (setDirty copyA true) w) + 0
    = evalM dirtyCount w + 1.
Proof.
  assert (index_inv (execM (run [Register copyA]) initialWorld))
    as Hinv by (apply (bool_decide_unpack _); vm_compute; exact I).
  split; [exact Hinv|].
  destruct (setDirty_moves_dirtyCount copyA true _ Hinv) as [Hreg _].
  apply Hreg. apply (bool_decide_unpack _). vm_compute. exact I.
Defined.

(** X5: [isDirty(r)] looks at the copies stored for [r] and at their flags,
    and at nothing else.  Registering a copy that reports clean, or disposing
    a handle of such a copy, leaves [isDirty(r)] as it is for every [r]; so
    does a dirty transition of a copy that is not in the set stored for
    [r]. *)
Theorem isDirty_unmoved_by_clean_or_unstored_copy
    (c : IWorkingCopy) (n : nat) (b : bool) (r : URI) (w : World) :
  (¬ reportsDirty w c →
   evalM (isDirty r) (execM (registerWorkingCopy c) w) = evalM (isDirty r) w
   ∧ evalM (isDirty r) (execM (dispose (toDisposable c n)) w)
     = evalM (isDirty r) w)
  ∧ (c ∉ copiesUnder (toString r) w →
     evalM (isDirty r) (execM (setDirty c b) w) = evalM (isDirty r) w).
Proof.
  split.
  - intros Hclean. rewrite reportsDirty_elem_of in Hclean.
    split; apply bool_eq_of_iff.
    + destruct (isDirty_run r w) as [_ ->].
      destruct (isDirty_run r (execM (registerWorkingCopy c) w)) as [_ ->].
      rewrite copiesUnder_register.
      destruct (register_others c w) as (_ & _ & -> & _).
      destruct (decide (key c = toString r)); [|done]. split.
      * intros (x & [Hx| ->%elem_of_singleton]%elem_of_union & Hd); [|done].
        by exists x.
      * intros (x & Hx & Hd). exists x. split; [by apply elem_of_union_l|done].
    + destruct (isDirty_run r w) as [_ ->].
      destruct (isDirty_run r (execM (dispose (toDisposable c n)) w)) as [_ ->].
      rewrite copiesUnder_dispose. simpl.
      destruct (dispose_run (toDisposable c n) w) as (_ & _ & _ & -> & _).
      destruct (decide (key c = toString r)); [|done]. split.
      * intros (x & [Hx _]%elem_of_difference & Hd). by exists x.
      * intros (x & Hx & Hd). exists x. split; [|done].
        apply elem_of_difference. split; [done|].
        rewrite elem_of_singleton. by intros ->.
  - intros Hout. apply bool_eq_of_iff.
    destruct (isDirty_run r w) as [_ ->].
    destruct (isDirty_run r (execM (setDirty c b) w)) as [_ ->].
    rewrite (copiesUnder_same_index _ w) by apply setDirty_index.
    split; intros (x & Hx & Hd); exists x; (split; [done|]);
      apply reportsDirty_elem_of; apply reportsDirty_elem_of in Hd.
    + rewrite reportsDirty_setDirty, decide_False in Hd; [done|].
      by intros ->.
    + rewrite reportsDirty_setDirty, decide_False; [done|]. by intros ->.
Qed.

(** The theorem at [/f1] with a dirty [copyA] registered: registering the
    clean [copyB] of the same resource does not move [isDirty], nor does a
    transition of the unregistered [copyC]. *)
Lemma isDirty_unmoved_by_clean_or_unstored_copy_witness :
  let w := execM (run [Register copyA; SetDirty copyA true]) initialWorld in
  evalM (isDirty "/f1") (execM (registerWorkingCopy copyB) w)
  = evalM (isDirty "/f1") w
  ∧ evalM (isDirty "/f1") (execM (setDirty copyC true) w)
    = evalM (isDirty "/f1") w.
Proof.
  split.
  - destruct (isDirty_unmoved_by_clean_or_unstored_copy copyB 0 true "/f1"
                (execM (run [Register copyA; SetDirty copyA true])
                       initialWorld))
      as [Hclean _].
    apply Hclean. apply (bool_decide_unpack _). vm_compute. exact I.
  - destruct (isDirty_unmoved_by_clean_or_unstored_copy copyC 0 true "/f1"
                (execM (run [Register copyA; SetDirty copyA true])
                       initialWorld))
      as [_ Hout].
    apply Hout. apply (bool_decide_unpack _). vm_compute. exact I.
Defined.

(** X6: after [registerWorkingCopy(c)], [isDirty] on the resource of [c] is
    true exactly when [c] reports dirty or the resource was dirty before. *)
Theorem isDirty_after_register (c : IWorkingCopy) (w : World) :
  evalM (isDirty (resource c)) (execM (registerWorkingCopy c) w) = true
  ↔ reportsDirty w c ∨ evalM (isDirty (resource c)) w = true.
Proof.
  destruct (isDirty_run (resource c) w) as [_ ->].
  destruct (isDirty_run (resource c) (execM (registerWorkingCopy c) w))
    as [_ ->].
  fold (key c). rewrite copiesUnder_register, decide_True by done.
  destruct (register_others c w) as (_ & _ & -> & _).
  setoid_rewrite elem_of_union. setoid_rewrite elem_of_singleton.
  rewrite reportsDirty_elem_of. split.
  - intros (x & [Hx| ->] & Hd); [right; by exists x|by left].
  - intros [Hd|(x & Hx & Hd)]; [exists c; by split; [right|]|].
    exists x. split; [by left|done].
Qed.

(** X7: the two queries agree: [dirtyCount] is positive exactly when
    [isDirty(r)] is true for some resource [r], and it never exceeds the
    number of registered copies. *)
Theorem dirtyCount_positive_iff_some_resource_dirty (w : World) :
  index_inv w →
  (0 < evalM dirtyCount w ↔ ∃ r : URI, evalM (isDirty r) w = true)
  ∧ evalM dirtyCount w ≤ size (indexedCopies w).
Proof.
  intros Hinv. rewrite dirtyCount_value by done. split.
  - split.
    + intros Hpos.
      destruct (set_choose_L (filter (reportsDirty w) (indexedCopies w)))
        as [c [Hd Hc]%elem_of_filter].
      { intros He. rewrite He, size_empty in Hpos. lia. }
      exists (resource c). destruct (isDirty_run (resource c) w) as [_ ->].
      exists c. split; [by apply indexed_iff_registered|].
      by apply reportsDirty_elem_of.
    + intros (r & Hr). destruct (isDirty_run r w) as [_ Hiff].
      apply Hiff in Hr as (c & Hc & Hd).
      assert (c ∈ filter (reportsDirty w) (indexedCopies w)) as Hin.
      { apply elem_of_filter. split; [by apply reportsDirty_elem_of|].
        apply elem_of_indexedCopies.
        apply elem_of_copiesUnder in Hc as (s & Hs & Hc). eauto. }
      destruct (decide (size (filter (reportsDirty w) (indexedCopies w)) = 0))
        as [Hz|Hz]; [|lia].
      apply size_empty_inv, leibniz_equiv in Hz. rewrite Hz in Hin.
      by apply not_elem_of_empty in Hin.
  - apply subseteq_size. intros x [_ Hx]%elem_of_filter. done.
Qed.

(** The theorem at the world in which a dirty [copyA] is registered. *)
Lemma dirtyCount_positive_iff_some_resource_dirty_witness :
  let w := execM (run [Register copyA; SetDirty copyA true]) initialWorld in
  index_inv w ∧ 0 < evalM dirtyCount w.
Proof.
  assert (index_inv
            (execM (run [Register copyA; SetDirty copyA true]) initialWorld))
    as Hinv by (apply (bool_decide_unpack _); vm_compute; exact I).
  split; [exact Hinv|].
  destruct (dirtyCount_positive_iff_some_resource_dirty _ Hinv) as [[_ Hpos] _].
  apply Hpos. exists "/f1". vm_compute. reflexivity.
Defined.

Section Subscriptions.
Implicit Types (c : IWorkingCopy) (w : World) (h : IDisposable).

Lemma filter_all {A} (P : A → Prop) `{!∀ x, Decision (P x)} (l : list A) :
  Forall P l → filter P l = l.
Proof.
  induction 1 as [|x l Hx _ IH]; [done|].
  by rewrite filter_cons, decide_True, IH.
Qed.

Lemma cancel_fresh_subscription c w :
  listeners_fresh w →
  filter (fun l => l.1 ≠ nextListener w)
         (copyListeners w ++ [(nextListener w, c)])
  = copyListeners w.
Proof.
  intros Hfresh. rewrite filter_app, filter_cons, decide_False by by intros ?.
  rewrite filter_nil, app_nil_r. apply filter_all.
  eapply Forall_impl; [exact Hfresh|]. intros l Hl. simpl in *. lia.
Qed.

Lemma step_listeners_fresh op w :
  listeners_fresh w → listeners_fresh (execM (step op) w).
Proof.
  intros Hfresh. rewrite step_run. unfold listeners_fresh.
  destruct op as [c|h|c b].
  - destruct (register_others c w) as (-> & -> & _).
    apply Forall_app. split.
    + eapply Forall_impl; [exact Hfresh|]. intros l Hl. simpl in *. lia.
    + apply Forall_singleton. simpl. lia.
  - destruct (dispose_run h w) as (_ & -> & -> & _).
    apply Forall_forall. intros l [_ Hl]%list_elem_of_filter.
    by apply (proj1 (Forall_forall _ _) Hfresh).
  - by rewrite setDirty_run.
Qed.

Lemma step_listeners_NoDup op w :
  listeners_fresh w →
  NoDup (copyListeners w).*1 →
  NoDup (copyListeners (execM (step op) w)).*1.
Proof.
  intros Hfresh Hnd. rewrite step_run. destruct op as [c|h|c b].
  - destruct (register_others c w) as (-> & _).
    rewrite fmap_app. apply NoDup_app. split; [done|]. split.
    + intros n (l & -> & Hl)%list_elem_of_fmap Hn.
      apply list_elem_of_singleton in Hn.
      pose proof (proj1 (Forall_forall _ _) Hfresh l Hl) as Hlt.
      simpl in *. lia.
    + apply NoDup_singleton.
  - destruct (dispose_run h w) as (_ & -> & _).
    apply (sublist_NoDup _ (copyListeners w).*1); [exact Hnd|].
    apply fmap_sublist, sublist_filter.
  - by rewrite setDirty_run.
Qed.
End Subscriptions.

(** X8: registering a copy that is not registered and then disposing the
    handle of that registration brings the index and the subscriptions back
    to what they were; the dirty flags are untouched, and the only trace is
    the one event fired when the copy reports dirty. *)
Theorem register_then_dispose_restores (c : IWorkingCopy) (w : World) :
  index_inv w →
  listeners_fresh w →
  ¬ registered c w →
  let h := evalM (registerWorkingCopy c) w in
  let w' := execM (dispose h) (execM (registerWorkingCopy c) w) in
  mapResourceToWorkingCopy w' = mapResourceToWorkingCopy w
  ∧ copyListeners w' = copyListeners w
  ∧ dirtyCopies w' = dirtyCopies w
  ∧ firedEvents w'
    = firedEvents w ++ (if decide (reportsDirty w c) then [c] else []).
Proof.
  intros Hinv Hfresh Hnot h w'.
  destruct (register_others c w) as (Hl & _ & Hd & Hf & Hh).
  fold h in Hh.
  destruct (dispose_run h (execM (registerWorkingCopy c) w))
    as (Hi' & Hl' & _ & Hd' & Hf').
  fold w' in Hi', Hl', Hd', Hf'.
  rewrite Hh in Hi', Hl', Hf'. simpl in Hi', Hl', Hf'.
  split; [|split; [|split]].
  - rewrite Hi', unregister_index.
    rewrite !copiesUnder_register.
    destruct (decide (key c = key c)) as [_|?]; [|done].
    assert ((copiesUnder (key c) w ∪ {[c]}) ∖ {[c]} = copiesUnder (key c) w)
      as ->.
    { apply leibniz_equiv. intros x.
      rewrite elem_of_difference, elem_of_union, elem_of_singleton.
      split; [by intros [[?|?] ?]|]. intros Hx. split; [by left|].
      by intros ->. }
    rewrite decide_True
      by (apply elem_of_union_r; by apply elem_of_singleton).
    rewrite register_index. unfold copiesUnder.
    destruct (mapResourceToWorkingCopy w !! key c) as [s|] eqn:Es; simpl.
    + destruct (Hinv _ _ Es) as [Hne _]. rewrite decide_False by done.
      by rewrite insert_insert_eq, insert_id.
    + rewrite decide_True by done. rewrite delete_insert_eq.
      by apply delete_id.
  - rewrite Hl', Hl. by apply cancel_fresh_subscription.
  - by rewrite Hd', Hd.
  - rewrite Hf', Hf, Hd. f_equal.
    destruct (decide (reportsDirty w c)) as [Hr|Hr].
    + rewrite bool_decide_eq_true_2; [done|]. by apply reportsDirty_elem_of.
    + rewrite bool_decide_eq_false_2; [done|]. by rewrite <- reportsDirty_elem_of.
Qed.

(** The theorem at a clean [copyA] next to a registered [copyB]: the whole
    world but the subscription counter is back. *)
Lemma register_then_dispose_restores_witness :
  let w := execM (run [Register copyB]) initialWorld in
  let w' := execM (dispose (toDisposable copyA 1))
                  (execM (registerWorkingCopy copyA) w) in
  index_inv w ∧ listeners_fresh w ∧ ¬ registered copyA w
  ∧ mapResourceToWorkingCopy w' = mapResourceToWorkingCopy w
  ∧ copyListeners w' = copyListeners w
  ∧ firedEvents w' = firedEvents w.
Proof.
  assert (index_inv (execM (run [Register copyB]) initialWorld))
    as Hinv by (apply (bool_decide_unpack _); vm_compute; exact I).
  assert (listeners_fresh (execM (run [Register copyB]) initialWorld))
    as Hfresh by (apply (bool_decide_unpack _); vm_compute; exact I).
  assert (¬ registered copyA (execM (run [Register copyB]) initialWorld))
    as Hnot by (apply (bool_decide_unpack _); vm_compute; exact I).
  split; [exact Hinv|]. split; [exact Hfresh|]. split; [exact Hnot|].
  destruct (register_then_dispose_restores copyA _ Hinv Hfresh Hnot)
    as (Hi & Hl & _ & Hf).
  split; [exact Hi|]. split; [exact Hl|].
  etransitivity; [exact Hf|]. vm_compute. reflexivity.
Defined.

(** X9: whatever sequence of operations has run from the initial world, the
    index invariant holds, every subscription in use was numbered before the
    next one to be given out, and no two subscriptions in use have the same
    number. *)
Theorem run_keeps_invariants (ops : list Op) :
  let w := execM (run ops) initialWorld in
  index_inv w ∧ listeners_fresh w ∧ NoDup (copyListeners w).*1.
Proof.
  intros w. split; [apply run_inv, index_inv_initial|].
  assert (∀ w0, listeners_fresh w0 → NoDup (copyListeners w0).*1 →
            listeners_fresh (execM (run ops) w0)
            ∧ NoDup (copyListeners (execM (run ops) w0)).*1) as Hall.
  { induction ops as [|op ops IH]; intros w0 Hf Hn; [done|].
    rewrite run_cons. apply IH.
    - by apply step_listeners_fresh.
    - by apply step_listeners_NoDup. }
  apply Hall; [apply Forall_nil_2|apply NoDup_nil_2].
Qed.

(** X10: the subscription of a registration lives as long as its handle.
    If [c] has no subscription, then after [registerWorkingCopy(c)] one
    dirty transition of [c] makes the service fire exactly one event, for
    [c]; once the handle is disposed, a transition of [c] fires nothing. *)
Theorem one_registration_one_subscription (c : IWorkingCopy) (w : World) :
  listeners_fresh w →
  subscriptions c w = [] →
  let h := evalM (registerWorkingCopy c) w in
  let w1 := execM (registerWorkingCopy c) w in
  let w2 := execM (dispose h) w1 in
  (∀ b, firedEvents (execM (setDirty c b) w1) = firedEvents w1 ++ [c])
  ∧ (∀ b, firedEvents (execM (setDirty c b) w2) = firedEvents w2).
Proof.
  intros Hfresh Hnone h w1 w2.
  destruct (register_others c w) as (Hl & _ & _ & _ & Hh).
  fold w1 in Hl. fold h in Hh.
  destruct (dispose_run h w1) as (_ & Hl' & _). fold w2 in Hl'.
  rewrite Hh in Hl'. simpl in Hl'.
  rewrite Hl, cancel_fresh_subscription in Hl' by done.
  split; intros b; rewrite setDirty_run; simpl.
  - unfold subscriptions. rewrite Hl, filter_app, fmap_app.
    fold (subscriptions c w). rewrite Hnone.
    by rewrite filter_cons, decide_True.
  - unfold subscriptions. rewrite Hl'. fold (subscriptions c w).
    rewrite Hnone. simpl. by rewrite app_nil_r.
Qed.

(** The theorem at [copyA] in the initial world. *)
Lemma one_registration_one_subscription_witness :
  let w1 := execM (registerWorkingCopy copyA) initialWorld in
  let w2 := execM (dispose (toDisposable copyA 0)) w1 in
  firedEvents (execM (setDirty copyA true) w1) = [copyA]
  ∧ firedEvents (execM (setDirty copyA true) w2) = [].
Proof.
  destruct (one_registration_one_subscription copyA initialWorld)
    as [Hone Hnone].
  - apply Forall_nil_2.
  - reflexivity.
  - split; [exact (Hone true)|exact (Hnone true)].
Defined.

(** X11: disposing a handle touches nothing but its own copy and its own
    subscription: every other copy is registered afterwards exactly if it
    was before, every other subscription is in use afterwards exactly if it
    was before, and no dirty flag changes. *)
Theorem dispose_leaves_the_rest
    (h : IDisposable) (c' : IWorkingCopy) (n : nat) (w : World) :
  c' ≠ workingCopy h →
  n ≠ disposables h →
  let w' := execM (dispose h) w in
  (registered c' w' ↔ registered c' w)
  ∧ (∀ c, n ∈ subscriptions c w' ↔ n ∈ subscriptions c w)
  ∧ dirtyCopies w' = dirtyCopies w.
Proof.
  intros Hc Hn w'.
  destruct (dispose_run h w) as (_ & Hl & _ & Hd & _). fold w' in Hl, Hd.
  split; [|split; [|done]].
  - unfold registered, w'. rewrite copiesUnder_dispose.
    destruct (decide _); [|done].
    rewrite elem_of_difference, elem_of_singleton. split; [by intros []|done].
  - intros c. unfold subscriptions. rewrite Hl, !list_elem_of_fmap.
    split; intros ([m x] & -> & Hx); exists (m, x); (split; [done|]);
      rewrite !list_elem_of_filter in *; simpl in *; tauto.
Qed.

(** The theorem at [copyB], registered with [copyA], whose handle is
    disposed. *)
Lemma dispose_leaves_the_rest_witness :
  let w := execM (run [Register copyA; Register copyB]) initialWorld in
  let w' := execM (dispose (toDisposable copyA 0)) w in
  registered copyB w' ∧ 1 ∈ subscriptions copyB w'.
Proof.
  destruct (dispose_leaves_the_rest (toDisposable copyA 0) copyB 1
              (execM (run [Register copyA; Register copyB]) initialWorld))
    as (Hreg & Hsub & _).
  - discriminate.
  - discriminate.
  - split.
    + apply Hreg. apply (bool_decide_unpack _). vm_compute. exact I.
    + apply Hsub. vm_compute. left.
Defined.

(** * Further properties of the tracker *)

Section Handler.
Variable AutoSave : Z.
Variable VIEWLET_ID : string.
Variable sv : Services.
Implicit Types (w : World) (t : DirtyFilesTracker) (c : IWorkingCopy).

Lemma updateActivityBadge_fields w t :
  let t' := updateActivityBadge VIEWLET_ID w t in
  lastKnownDirtyCount t' = Some (evalM dirtyCount w)
  ∧ hasDirtyCount t' = Nat.ltb 0 (evalM dirtyCount w)
  ∧ (is_Some (badgeHandle t') ↔ 0 < evalM dirtyCount w)
  ∧ openEditors t' = openEditors t
  ∧ indicator_inv t'.
Proof.
  unfold updateActivityBadge, indicator_inv, hasDirtyCount.
  destruct (Nat.ltb_spec 0 (evalM dirtyCount w)) as [Hpos|Hzero]; simpl.
  - rewrite (proj2 (Nat.ltb_lt _ _) Hpos). repeat split; done.
  - rewrite (proj2 (Nat.ltb_ge _ _) Hzero). repeat split; try done. lia.
Qed.

Lemma updateActivityBadge_twice w t :
  updateActivityBadge VIEWLET_ID w (updateActivityBadge VIEWLET_ID w t)
  = updateActivityBadge VIEWLET_ID w t.
Proof. unfold updateActivityBadge. by destruct (Nat.ltb 0 _). Qed.

Lemma updateActivityBadge_same_world w w' t :
  mapResourceToWorkingCopy w' = mapResourceToWorkingCopy w →
  dirtyCopies w' = dirtyCopies w →
  updateActivityBadge VIEWLET_ID w' t = updateActivityBadge VIEWLET_ID w t.
Proof.
  intros Hi Hd. unfold updateActivityBadge.
  by rewrite (dirtyCount_same w w' Hi Hd).
Qed.

Lemma handler_same_world w w' c t :
  mapResourceToWorkingCopy w' = mapResourceToWorkingCopy w →
  dirtyCopies w' = dirtyCopies w →
  onWorkingCopyDidChangeDirty AutoSave VIEWLET_ID sv w' c t
  = onWorkingCopyDidChangeDirty AutoSave VIEWLET_ID sv w c t.
Proof.
  intros Hi Hd. unfold onWorkingCopyDidChangeDirty.
  rewrite (updateActivityBadge_same_world w w' t Hi Hd).
  unfold evalM, Copy.isDirty. simpl. by rewrite Hd.
Qed.

Lemma handler_unsuppressed_dirty w c t :
  suppressed AutoSave sv c = false →
  reportsDirty w c →
  onWorkingCopyDidChangeDirty AutoSave VIEWLET_ID sv w c t
  = updateActivityBadge VIEWLET_ID w t.
Proof.
  unfold suppressed, onWorkingCopyDidChangeDirty, reportsDirty.
  by intros -> ->.
Qed.
End Handler.

(** X12: handling the same event twice in one world is the same as handling
    it once, so an event that is delivered more than once does the indicator
    no harm. *)
Theorem handler_idempotent
    (AutoSave : Z) (VIEWLET_ID : string) (sv : Services)
    (w : World) (copy : IWorkingCopy) (t : DirtyFilesTracker) :
  let handle := onWorkingCopyDidChangeDirty AutoSave VIEWLET_ID sv w copy in
  handle (handle t) = handle t.
Proof.
  intros handle. unfold handle, onWorkingCopyDidChangeDirty.
  destruct (negb _ && _); [done|].
  destruct (evalM (Copy.isDirty copy) w); simpl.
  - apply updateActivityBadge_twice.
  - destruct (hasDirtyCount t) eqn:Ht; [|by rewrite Ht].
    destruct (hasDirtyCount (updateActivityBadge VIEWLET_ID w t)); [|done].
    apply updateActivityBadge_twice.
Qed.

(** X13: the fields of the tracker stay consistent: a badge is held exactly
    when the last known count is positive, and it shows that count.  This
    holds of the new tracker, and both handlers preserve it. *)
Theorem handlers_keep_indicator_consistent
    (AutoSave : Z) (VIEWLET_ID : string) (sv : Services) (w : World)
    (copy : IWorkingCopy) (e : list TextFileModelChangeEvent.t)
    (t : DirtyFilesTracker) :
  indicator_inv t →
  indicator_inv newTracker
  ∧ indicator_inv (onWorkingCopyDidChangeDirty AutoSave VIEWLET_ID sv w copy t)
  ∧ indicator_inv (onTextFilesDirty sv e t).
Proof.
  intros Hinv. split; [done|]. split; [|done].
  unfold onWorkingCopyDidChangeDirty.
  destruct (negb _ && _); [done|].
  destruct (_ || _); [|done]. apply updateActivityBadge_fields.
Qed.

(** The theorem at the new tracker, handling the event of a dirty copy. *)
Lemma handlers_keep_indicator_consistent_witness :
  let w := execM (run [Register copyA; SetDirty copyA true]) initialWorld in
  indicator_inv newTracker
  ∧ indicator_inv
      (onWorkingCopyDidChangeDirty 2 "workbench.view.explorer" manualSave
         w copyA newTracker).
Proof.
  assert (indicator_inv newTracker) as Hnew by reflexivity.
  split; [exact Hnew|].
  destruct (handlers_keep_indicator_consistent 2 "workbench.view.explorer"
              manualSave
              (execM (run [Register copyA; SetDirty copyA true]) initialWorld)
              copyA [] newTracker Hnew)
    as (_ & Hhandled & _).
  exact Hhandled.
Defined.

(** X14: the event of a copy that reports clean, arriving while no positive
    count is remembered, is dropped: the tracker stays as it is and no badge
    appears, whatever [dirtyCount] is at that moment. *)
Theorem clean_event_without_count_is_dropped
    (AutoSave : Z) (VIEWLET_ID : string) (sv : Services)
    (w : World) (copy : IWorkingCopy) (t : DirtyFilesTracker) :
  ¬ reportsDirty w copy →
  hasDirtyCount t = false →
  onWorkingCopyDidChangeDirty AutoSave VIEWLET_ID sv w copy t = t.
Proof.
  intros Hclean Hnone. unfold onWorkingCopyDidChangeDirty.
  destruct (negb _ && _); [done|].
  apply not_true_is_false in Hclean. unfold reportsDirty in Hclean.
  by rewrite Hclean, Hnone.
Qed.

(** The theorem at the new tracker, when a dirty [copyA] is registered and
    the event is that of the clean [copyB]: the count is 1, no badge
    appears. *)
Lemma clean_event_without_count_is_dropped_witness :
  let w := execM (run [Register copyA; Register copyB; SetDirty copyA true])
                 initialWorld in
  evalM dirtyCount w = 1
  ∧ onWorkingCopyDidChangeDirty 2 "workbench.view.explorer" manualSave
      w copyB newTracker = newTracker.
Proof.
  split; [vm_compute; reflexivity|].
  apply clean_event_without_count_is_dropped.
  - apply (bool_decide_unpack _). vm_compute. exact I.
  - reflexivity.
Defined.

Section CapabilityBit.
Local Open Scope Z_scope.

Lemma toInt32_small (z : Z) : - 2 ^ 31 ≤ z < 2 ^ 31 → toInt32 z = z.
Proof. intros Hz. unfold toInt32. rewrite Z.mod_small; lia. Qed.

Lemma toInt32_testbit (z j : Z) :
  0 ≤ j < 32 → Z.testbit (toInt32 z) j = Z.testbit z j.
Proof.
  intros Hj.
  rewrite <- (Z.mod_pow2_bits_low (toInt32 z) 32 j) by lia.
  rewrite <- (Z.mod_pow2_bits_low z 32 j) by lia.
  f_equal. unfold toInt32. rewrite Zminus_mod_idemp_l. f_equal. lia.
Qed.

Lemma land_pow2_nonzero (a i : Z) :
  0 ≤ i → Z.land a (2 ^ i) ≠ 0 ↔ Z.testbit a i = true.
Proof.
  intros Hi. split.
  - intros Hne. destruct (Z.testbit a i) eqn:Hbit; [done|].
    exfalso. apply Hne. apply Z.bits_inj'. intros n Hn.
    rewrite Z.land_spec, Z.bits_0, Z.pow2_bits_eqb by done.
    destruct (Z.eqb_spec i n) as [->|?]; [by rewrite Hbit|].
    apply andb_false_r.
  - intros Hbit Hz. apply (f_equal (fun x => Z.testbit x i)) in Hz.
    rewrite Z.land_spec, Z.bits_0, Z.pow2_bits_eqb, Hbit, Z.eqb_refl in Hz
      by done.
    done.
Qed.
End CapabilityBit.

(** X15: when the auto-save capability is a single bit [2^i] below the sign
    bit, the handler's test [capabilities & AutoSave] reads exactly bit [i]
    of the copy's capabilities, whatever integer they are: the event is
    suppressed if and only if that bit is set and the policy is auto-save
    after a short delay. *)
Theorem auto_save_test_reads_capability_bit
    (i : Z) (sv : Services) (copy : IWorkingCopy) :
  (0 ≤ i < 31)%Z →
  suppressed (2 ^ i) sv copy = true
  ↔ Z.testbit (capabilities copy) i = true
    ∧ getAutoSaveMode sv = AFTER_SHORT_DELAY.
Proof.
  intros Hi. unfold suppressed, band.
  assert (2 ^ i < 2 ^ 31)%Z as Hlt by (apply Z.pow_lt_mono_r; lia).
  assert (0 < 2 ^ i)%Z as Hpos by (apply Z.pow_pos_nonneg; lia).
  rewrite (toInt32_small (2 ^ i)) by lia.
  rewrite andb_true_iff, negb_true_iff, bool_decide_eq_true, Z.eqb_neq.
  rewrite land_pow2_nonzero by lia.
  rewrite toInt32_testbit by lia. done.
Qed.

(** The theorem at bit 1 and [copyB], whose capabilities are 2. *)
Lemma auto_save_test_reads_capability_bit_witness :
  suppressed (2 ^ 1) sampleServices copyB = true
  ↔ Z.testbit (capabilities copyB) 1 = true
    ∧ getAutoSaveMode sampleServices = AFTER_SHORT_DELAY.
Proof. apply auto_save_test_reads_capability_bit. lia. Defined.

Section OpenDirty.
Variable sv : Services.

Lemma distinctFrom_sublist {T} (keyFn : T → string) (seen : gset string)
    (array : list T) :
  distinctFrom seen keyFn array `sublist_of` array.
Proof.
  revert seen. induction array as [|elem rest IH]; intros seen; simpl.
  - apply sublist_nil.
  - destruct (decide (keyFn elem ∈ seen)).
    + apply sublist_cons, IH.
    + apply sublist_skip, IH.
Qed.

Lemma List_filter_sublist {A} (f : A → bool) (l : list A) :
  List.filter f l `sublist_of` l.
Proof.
  induction l as [|x l IH]; simpl; [apply sublist_nil|].
  destruct (f x); [by apply sublist_skip|by apply sublist_cons].
Qed.

Lemma List_filter_none {A} (f : A → bool) (l : list A) :
  (∀ x, x ∈ l → f x = false) → List.filter f l = [].
Proof.
  induction l as [|x l IH]; intros Hall; simpl; [done|].
  rewrite (Hall x) by left. apply IH. intros y Hy. apply Hall. by right.
Qed.

Lemma input_resource_requests (l : list URI) :
  input_resource
    <$> map (fun resource =>
               mkResourceInput resource (mkEditorOptions true true true)) l
  = l.
Proof.
  induction l as [|x l IH]; [done|].
  cbn [map]. rewrite fmap_cons. cbn [input_resource]. by rewrite IH.
Qed.
End OpenDirty.

(** X16: a batch of notifications of which none qualifies, the empty batch
    included, still makes one request to the editor host, for no resource;
    the indicator is not touched. *)
Theorem onTextFilesDirty_nothing_to_open
    (sv : Services) (e : list TextFileModelChangeEvent.t)
    (t : DirtyFilesTracker) :
  (∀ ev, ev ∈ e → becameDirtyUnopened sv ev = false) →
  onTextFilesDirty sv e t
  = mkTracker (lastKnownDirtyCount t) (badgeHandle t) (openEditors t ++ [[]]).
Proof.
  intros Hnone. unfold onTextFilesDirty, doOpenDirtyResources.
  by rewrite (List_filter_none _ _ Hnone).
Qed.

(** The theorem at a batch of a file that is pending save, a file that is
    open and a file without a model. *)
Lemma onTextFilesDirty_nothing_to_open_witness :
  openEditors
    (onTextFilesDirty sampleServices
       [TextFileModelChangeEvent.mk "/b"; TextFileModelChangeEvent.mk "/c";
        TextFileModelChangeEvent.mk "/d"] newTracker)
  = [[]].
Proof.
  rewrite onTextFilesDirty_nothing_to_open; [reflexivity|].
  intros ev Hev. repeat (apply elem_of_cons in Hev as [->|Hev]; [reflexivity|]).
  by apply not_elem_of_nil in Hev.
Defined.

(** X17: the resources requested from the editor host come in the order of
    the batch: they are a subsequence of the resources of the notifications;
    and the handler leaves the indicator alone. *)
Theorem onTextFilesDirty_keeps_order
    (sv : Services) (e : list TextFileModelChangeEvent.t)
    (t : DirtyFilesTracker) :
  ∃ batch,
    openEditors (onTextFilesDirty sv e t) = openEditors t ++ [batch]
    ∧ input_resource <$> batch
      `sublist_of` TextFileModelChangeEvent.resource <$> e
    ∧ lastKnownDirtyCount (onTextFilesDirty sv e t) = lastKnownDirtyCount t
    ∧ badgeHandle (onTextFilesDirty sv e t) = badgeHandle t.
Proof.
  eexists. split; [reflexivity|]. split; [|done].
  rewrite input_resource_requests. unfold distinct.
  etransitivity; [apply distinctFrom_sublist|].
  apply fmap_sublist, List_filter_sublist.
Qed.

(** * The service with the tracker listening *)

Section ListeningLemmas.
Variable AutoSave : Z.
Variable VIEWLET_ID : string.
Variable sv : Services.
Implicit Types (w : World) (t : DirtyFilesTracker) (c : IWorkingCopy)
  (s : System) (h : IDisposable).

Local Abbreviation handler :=
  (onWorkingCopyDidChangeDirty AutoSave VIEWLET_ID sv).

Ltac run_SM :=
  unfold execSM, whenSM, liftW, callTracker, fireL, Index.get, Index.set,
    Index.delete, Copy.isDirty, Copy.unsubscribe, fire,
    mbind, SM_bind, M_bind, mret, SM_ret, M_ret; simpl.

Lemma fireL_run c s :
  fireL AutoSave VIEWLET_ID sv c s
  = (tt, mkSystem (execM (fire c) (world s))
                  (handler (execM (fire c) (world s)) c (tracker s))).
Proof. by run_SM. Qed.

Lemma unregisterWorkingCopyL_run c s :
  let w' := execM (unregisterWorkingCopy c) (world s) in
  execSM (unregisterWorkingCopyL AutoSave VIEWLET_ID sv c) s
  = mkSystem w'
      (if bool_decide (c ∈ dirtyCopies (world s))
       then handler w' c (tracker s) else tracker s).
Proof.
  unfold unregisterWorkingCopyL, unregisterWorkingCopy, execM. run_SM.
  destruct s as [w t]. simpl.
  destruct (mapResourceToWorkingCopy w !! toString (resource c)) as [x|];
    simpl.
  - destruct (bool_decide (c ∈ x)); simpl.
    + destruct (Nat.eqb _ 0); simpl;
        by destruct (bool_decide (c ∈ dirtyCopies w)).
    + destruct (bool_decide (c ∈ dirtyCopies w)); simpl; [done|].
      by destruct w.
  - destruct (bool_decide (c ∈ dirtyCopies w)); simpl; [done|].
    by destruct w.
Qed.

Lemma disposeL_run h s :
  execSM (disposeL AutoSave VIEWLET_ID sv h) s
  = mkSystem (execM (dispose h) (world s))
      (if bool_decide (workingCopy h ∈ dirtyCopies (world s))
       then handler (execM (dispose h) (world s)) (workingCopy h) (tracker s)
       else tracker s).
Proof.
  pose proof (unregisterWorkingCopyL_run (workingCopy h) s) as Hun.
  destruct (dispose_run h (world s)) as (Hi & _ & _ & Hd & _).
  destruct (unregister_others (workingCopy h) (world s)) as (_ & _ & Hd' & _).
  rewrite (handler_same_world AutoSave VIEWLET_ID sv
             (execM (unregisterWorkingCopy (workingCopy h)) (world s))
             (execM (dispose h) (world s)))
    by (by rewrite ?Hd, ?Hd').
  unfold disposeL, dispose, execSM, execM in *. unfold mbind, SM_bind, M_bind.
  destruct (unregisterWorkingCopyL AutoSave VIEWLET_ID sv (workingCopy h) s)
    as [[] s1].
  simpl in Hun. subst s1. unfold liftW. simpl.
  by destruct (unregisterWorkingCopy (workingCopy h) (world s)) as [[] w1].
Qed.

Lemma iter_handler_same_world w w' c (k : nat) t :
  mapResourceToWorkingCopy w' = mapResourceToWorkingCopy w →
  dirtyCopies w' = dirtyCopies w →
  Nat.iter k (handler w' c) t = Nat.iter k (handler w c) t.
Proof.
  intros Hi Hd. induction k as [|k IH]; simpl; [done|].
  rewrite IH. by apply handler_same_world.
Qed.

Lemma deliverL_run (ls : list (nat * IWorkingCopy)) c s :
  execSM (deliverL AutoSave VIEWLET_ID sv ls c) s
  = mkSystem (execM (deliver ls c) (world s))
      (Nat.iter (length (filter (fun l => l.2 = c) ls))
                (handler (world s) c) (tracker s)).
Proof.
  revert s. induction ls as [|[n c'] ls IH]; intros s.
  - by destruct s.
  - unfold execSM, execM in *. simpl. unfold mbind, SM_bind, M_bind.
    rewrite filter_cons. simpl.
    destruct (decide (c' = c)) as [->|Hne].
    + rewrite bool_decide_eq_true_2 by done. simpl.
      rewrite IH. simpl. f_equal.
      rewrite (iter_handler_same_world (world s)) by done.
      rewrite (handler_same_world AutoSave VIEWLET_ID sv (world s)) by done.
      by rewrite <- Nat.iter_succ_r.
    + rewrite bool_decide_eq_false_2 by done. simpl. apply IH.
Qed.

Lemma iter_idempotent {A} (f : A → A) (k : nat) (x : A) :
  (∀ y, f (f y) = f y) → Nat.iter (S k) f x = f x.
Proof.
  intros Hf. induction k as [|k IH]; [done|].
  change (Nat.iter (S (S k)) f x) with (f (Nat.iter (S k) f x)).
  by rewrite IH.
Qed.

Lemma setDirtyL_run c (b : bool) s :
  execSM (setDirtyL AutoSave VIEWLET_ID sv c b) s
  = mkSystem (execM (setDirty c b) (world s))
      (if decide (subscriptions c (world s) = [])
       then tracker s
       else handler (execM (setDirty c b) (world s)) c (tracker s)).
Proof.
  pose (w0 := mkWorld (mapResourceToWorkingCopy (world s))
                (copyListeners (world s)) (nextListener (world s))
                (if b then dirtyCopies (world s) ∪ {[c]}
                 else dirtyCopies (world s) ∖ {[c]})
                (firedEvents (world s))).
  change (execSM (setDirtyL AutoSave VIEWLET_ID sv c b) s)
    with (execSM (deliverL AutoSave VIEWLET_ID sv (copyListeners (world s)) c)
                 (mkSystem w0 (tracker s))).
  rewrite deliverL_run. simpl.
  change (execM (deliver (copyListeners (world s)) c) w0)
    with (execM (setDirty c b) (world s)).
  f_equal. unfold subscriptions.
  destruct (filter (fun l => l.2 = c) (copyListeners (world s)))
    as [|l ls] eqn:El; simpl length.
  - by rewrite decide_True.
  - rewrite decide_False by done.
    rewrite iter_idempotent by (intros y; apply handler_idempotent).
    apply handler_same_world; by rewrite setDirty_run.
Qed.
End ListeningLemmas.

(** X18: the compensating event reaches the tracker after the copy has left
    the index.  When the handle of a copy that reports dirty is disposed and
    the event is not suppressed, the tracker recomputes in the world in
    which the copy is already unregistered: afterwards its last known count
    is the [dirtyCount] of the service, and it holds a badge exactly when
    that count is positive. *)
Theorem disposing_dirty_copy_updates_indicator
    (AutoSave : Z) (VIEWLET_ID : string) (sv : Services)
    (h : IDisposable) (s : System) :
  suppressed AutoSave sv (workingCopy h) = false →
  reportsDirty (world s) (workingCopy h) →
  let s' := execSM (disposeL AutoSave VIEWLET_ID sv h) s in
  world s' = execM (dispose h) (world s)
  ∧ lastKnownDirtyCount (tracker s') = Some (evalM dirtyCount (world s'))
  ∧ (is_Some (badgeHandle (tracker s')) ↔ 0 < evalM dirtyCount (world s')).
Proof.
  intros Hunsup Hdirty s'. unfold s'. rewrite disposeL_run. simpl.
  split; [done|].
  destruct (dispose_run h (world s)) as (_ & _ & _ & Hd & _).
  rewrite bool_decide_eq_true_2 by by apply reportsDirty_elem_of.
  rewrite handler_unsuppressed_dirty; [|done|].
  - destruct (updateActivityBadge_fields VIEWLET_ID
                (execM (dispose h) (world s)) (tracker s))
      as (Hlast & _ & Hbadge & _).
    done.
  - apply reportsDirty_elem_of. rewrite Hd. by apply reportsDirty_elem_of.
Qed.

(** The theorem at a tracker that shows 2 for the dirty [copyA] and [copyB]:
    after the handle of [copyA] is disposed it shows 1. *)
Lemma disposing_dirty_copy_updates_indicator_witness :
  let w := execM (run [Register copyA; Register copyB; SetDirty copyA true;
                       SetDirty copyB true]) initialWorld in
  let t := updateActivityBadge "workbench.view.explorer" w newTracker in
  let s' := execSM (disposeL 2 "workbench.view.explorer" manualSave
                      (toDisposable copyA 0)) (mkSystem w t) in
  lastKnownDirtyCount t = Some 2
  ∧ lastKnownDirtyCount (tracker s') = Some 1.
Proof.
  split; [vm_compute; reflexivity|].
  destruct (disposing_dirty_copy_updates_indicator 2 "workbench.view.explorer"
              manualSave (toDisposable copyA 0)
              (mkSystem
                 (execM (run [Register copyA; Register copyB;
                              SetDirty copyA true; SetDirty copyB true])
                        initialWorld)
                 (updateActivityBadge "workbench.view.explorer"
                    (execM (run [Register copyA; Register copyB;
                                 SetDirty copyA true; SetDirty copyB true])
                           initialWorld) newTracker)))
    as (_ & Hlast & _).
  - reflexivity.
  - apply (bool_decide_unpack _). vm_compute. exact I.
  - etransitivity; [exact Hlast|]. vm_compute. reflexivity.
Defined.

(** X19: when a copy with at least one subscription becomes dirty and the
    event is not suppressed, the tracker ends with the [dirtyCount] of the
    service as its last known count, and with a badge exactly when that
    count is positive, however many subscriptions deliver the event. *)
Theorem dirty_transition_updates_indicator
    (AutoSave : Z) (VIEWLET_ID : string) (sv : Services)
    (c : IWorkingCopy) (s : System) :
  suppressed AutoSave sv c = false →
  subscriptions c (world s) ≠ [] →
  let s' := execSM (setDirtyL AutoSave VIEWLET_ID sv c true) s in
  world s' = execM (setDirty c true) (world s)
  ∧ lastKnownDirtyCount (tracker s') = Some (evalM dirtyCount (world s'))
  ∧ (is_Some (badgeHandle (tracker s')) ↔ 0 < evalM dirtyCount (world s')).
Proof.
  intros Hunsup Hsubs s'. unfold s'. rewrite setDirtyL_run. simpl.
  split; [done|]. rewrite decide_False by done.
  rewrite handler_unsuppressed_dirty; [|done|].
  - destruct (updateActivityBadge_fields VIEWLET_ID
                (execM (setDirty c true) (world s)) (tracker s))
      as (Hlast & _ & Hbadge & _).
    done.
  - by rewrite reportsDirty_setDirty, decide_True.
Qed.

(** The theorem at [copyA], registered twice, and the new tracker. *)
Lemma dirty_transition_updates_indicator_witness :
  let w := execM (run [Register copyA; Register copyA]) initialWorld in
  let s' := execSM (setDirtyL 2 "workbench.view.explorer" manualSave
                      copyA true) (mkSystem w newTracker) in
  firedEvents (world s') = [copyA; copyA]
  ∧ lastKnownDirtyCount (tracker s') = Some 1.
Proof.
  destruct (dirty_transition_updates_indicator 2 "workbench.view.explorer"
              manualSave copyA
              (mkSystem
                 (execM (run [Register copyA; Register copyA]) initialWorld)
                 newTracker))
    as (Hworld & Hlast & _).
  - reflexivity.
  - vm_compute. discriminate.
  - split.
    + etransitivity; [exact (f_equal firedEvents Hworld)|].
      vm_compute. reflexivity.
    + etransitivity; [exact Hlast|]. vm_compute. reflexivity.
Defined.

(** X20: a tracker whose last known count is the [dirtyCount] of the service
    keeps that property when a copy with at least one subscription becomes
    clean and the event is not suppressed. *)
Theorem clean_transition_keeps_indicator_in_sync
    (AutoSave : Z) (VIEWLET_ID : string) (sv : Services)
    (c : IWorkingCopy) (s : System) :
  index_inv (world s) →
  suppressed AutoSave sv c = false →
  subscriptions c (world s) ≠ [] →
  lastKnownDirtyCount (tracker s) = Some (evalM dirtyCount (world s)) →
  let s' := execSM (setDirtyL AutoSave VIEWLET_ID sv c false) s in
  lastKnownDirtyCount (tracker s') = Some (evalM dirtyCount (world s')).
Proof.
  intros Hinv Hunsup Hsubs Hsync s'. unfold s'. rewrite setDirtyL_run. simpl.
  rewrite decide_False by done.
  set (w' := execM (setDirty c false) (world s)).
  unfold onWorkingCopyDidChangeDirty. unfold suppressed in Hunsup.
  rewrite Hunsup.
  assert (evalM (Copy.isDirty c) w' = false) as ->.
  { apply not_true_is_false. fold (reportsDirty w' c). unfold w'.
    by rewrite reportsDirty_setDirty, decide_True. }
  simpl. unfold hasDirtyCount. rewrite Hsync.
  destruct (Nat.ltb_spec 0 (evalM dirtyCount (world s))) as [Hpos|Hzero].
  - apply updateActivityBadge_fields.
  - rewrite Hsync. f_equal.
    destruct (setDirty_moves_dirtyCount c false (world s) Hinv) as [Hreg Hnot].
    fold w' in Hreg, Hnot.
    destruct (decide (registered c (world s))) as [Hr|Hr].
    + specialize (Hreg Hr). simpl in Hreg. lia.
    + by rewrite (Hnot Hr).
Qed.

(** The theorem at a tracker that shows 1 for the dirty [copyA], which
    becomes clean: it shows 0. *)
Lemma clean_transition_keeps_indicator_in_sync_witness :
  let w := execM (run [Register copyA; SetDirty copyA true]) initialWorld in
  let t := updateActivityBadge "workbench.view.explorer" w newTracker in
  let s' := execSM (setDirtyL 2 "workbench.view.explorer" manualSave
                      copyA false) (mkSystem w t) in
  lastKnownDirtyCount t = Some 1
  ∧ lastKnownDirtyCount (tracker s') = Some 0.
Proof.
  split; [vm_compute; reflexivity|].
  pose proof (clean_transition_keeps_indicator_in_sync 2
                "workbench.view.explorer" manualSave copyA
                (mkSystem
                   (execM (run [Register copyA; SetDirty copyA true])
                          initialWorld)
                   (updateActivityBadge "workbench.view.explorer"
                      (execM (run [Register copyA; SetDirty copyA true])
                             initialWorld) newTracker)))
    as Hsync.
  etransitivity; [apply Hsync|].
  - apply (bool_decide_unpack _). vm_compute. exact I.
  - reflexivity.
  - vm_compute. discriminate.
  - vm_compute. reflexivity.
  - vm_compute. reflexivity.
Defined.
